(** * quint-viz: the trace-interpretation layer of [src/quint-viz/src/itf.ts]

    A shallow embedding of the ITF helpers ([stripPrefix], [extractNumeric],
    [extractVariantTag], [classifyVars], [buildSeries], [buildVariantSeries],
    [findVariantChanges], [findVariantVar]) and the properties of the
    specification that concern them.

    Conventions of the embedding.
    - A JavaScript string is the byte string of its UTF-8 encoding.  The
      separator ["::"] is ASCII, so splitting on it and comparing names give
      the same answers on bytes as on UTF-16 code units.
    - A JavaScript number is an IEEE 754 binary64 value: Rocq's primitive
      [float].  The code never computes with numbers, it only stores them
      and obtains them from [Number(string)].
    - [T | null] is [option T], [null] being [None].
    - An object used as a dictionary is a finite map from property names to
      values; only own properties are represented.  What an object inherits
      from [Object.prototype] are functions (and the prototype itself under
      [__proto__]); neither is a number, has a ["#bigint"] or has a ["tag"]
      property, so both extractors answer [null] on them exactly as they do
      on [undefined], and a read of a name that is not an own property is
      modelled as [undefined].
    - A [for] loop over an array is a left fold over the list; a statement that
      can throw returns [option], [None] standing for the exception. *)

From Stdlib Require Import ZArith String Ascii List Lia.
From Stdlib Require Import Floats.PrimFloat Floats.SpecFloat Floats.FloatOps.
From stdpp Require Import gmap strings list fin_maps.

Set Warnings "-register-all".

Local Open Scope string_scope.
Local Open Scope list_scope.
Local Open Scope nat_scope.

(** ** Strings *)

Module JsString.

(** [s.startsWith(p)] *)
Fixpoint startsWith (p s : string) : bool :=
  match p, s with
  | EmptyString, _ => true
  | String a p', String b s' => if Ascii.eqb a b then startsWith p' s' else false
  | String _ _, EmptyString => false
  end.

(** [s.includes(p)] *)
Fixpoint includes (p s : string) : bool :=
  match s with
  | EmptyString => startsWith p s
  | String _ s' => startsWith p s || includes p s'
  end.

(** The scan of [s.split(sep)] for a non-empty separator: [cur] is the part
    being read, [skip] counts the characters of a separator that has just been
    recognised and is still to be passed over.  The scan goes left to right,
    so the leftmost occurrence of the separator wins. *)
Fixpoint split_scan (sep : string) (skip : nat) (cur s : string) : list string :=
  match s with
  | EmptyString => [cur]
  | String c s' =>
      match skip with
      | S k => split_scan sep k cur s'
      | O =>
          if startsWith sep s
          then cur :: split_scan sep (String.length sep - 1) "" s'
          else split_scan sep 0 (cur +:+ String c "") s'
      end
  end.

(** [s.split(sep)].  With the empty separator JavaScript cuts the string into
    its code units. *)
Definition split (s sep : string) : list string :=
  match sep with
  | EmptyString => (fun c => String c "") <$> list_ascii_of_string s
  | _ => split_scan sep 0 "" s
  end.

(** [parts.join(sep)] *)
Fixpoint join (sep : string) (parts : list string) : string :=
  match parts with
  | [] => ""
  | [p] => p
  | p :: ps => p +:+ sep +:+ join sep ps
  end.

(** [s.endsWith(":")]-like test on the last character. *)
Fixpoint last_char_is (c : ascii) (s : string) : bool :=
  match s with
  | EmptyString => false
  | String a EmptyString => Ascii.eqb a c
  | String _ s' => last_char_is c s'
  end.

End JsString.

(** ** Name normalisation *)

(** Strip module prefixes: 'a::b::varName' -> 'varName'.

    [parts[parts.length - 1]]; an out-of-range read would be [undefined], which
    [stripPrefix_defined] below shows never to happen. *)
Definition stripPrefix (name : string) : string :=
  let parts := JsString.split name "::" in
  default "" (parts !! (length parts - 1)).

(** ** Numbers *)

(** The type [number] of TypeScript. *)
Abbreviation number := float.

(** What [Number(s)] does on a string [s], ECMAScript's StringToNumber.  The
    argument is trimmed of white space and line terminators and read as a
    StringNumericLiteral: nothing at all (the value 0), an optionally signed
    decimal literal or [Infinity], or an unsigned binary, octal or hexadecimal
    integer.  Anything else is [NaN].  The mathematical value of the literal is
    rounded to the nearest binary64 value, ties to even. *)
Module JsNumber.

Local Open Scope Z_scope.

Definition prec : Z := 53.
Definition emax : Z := 1024.

(** The UTF-8 encodings of WhiteSpace and LineTerminator. *)
Definition white_space : list (list Z) :=
  [ [9]; [10]; [11]; [12]; [13]; [32]; [194; 160]; [225; 154; 128];
    [226; 128; 128]; [226; 128; 129]; [226; 128; 130]; [226; 128; 131];
    [226; 128; 132]; [226; 128; 133]; [226; 128; 134]; [226; 128; 135];
    [226; 128; 136]; [226; 128; 137]; [226; 128; 138]; [226; 128; 168];
    [226; 128; 169]; [226; 128; 175]; [226; 129; 159]; [227; 128; 128];
    [239; 187; 191] ].

Definition code (c : ascii) : Z := Z.of_nat (nat_of_ascii c).

Fixpoint drop_prefix (p : list Z) (l : list ascii) : option (list ascii) :=
  match p, l with
  | [], _ => Some l
  | n :: p', c :: l' => if n =? code c then drop_prefix p' l' else None
  | _ :: _, [] => None
  end.

Fixpoint drop_any (ps : list (list Z)) (l : list ascii) : option (list ascii) :=
  match ps with
  | [] => None
  | p :: ps' => match drop_prefix p l with Some r => Some r | None => drop_any ps' l end
  end.

Fixpoint trim_start (ws : list (list Z)) (fuel : nat) (l : list ascii) : list ascii :=
  match fuel with
  | O => l
  | S fuel' => match drop_any ws l with Some r => trim_start ws fuel' r | None => l end
  end.

Definition trim (l : list ascii) : list ascii :=
  let l1 := trim_start white_space (length l) l in
  reverse (trim_start (reverse <$> white_space) (length l1) (reverse l1)).

(** The value of a digit in a base, when it is one. *)
Definition digit_value (base : Z) (c : ascii) : option Z :=
  let n := code c in
  let d := if (48 <=? n) && (n <=? 57) then n - 48
           else if (97 <=? n) && (n <=? 102) then n - 87
           else if (65 <=? n) && (n <=? 70) then n - 55
           else base in
  if d <? base then Some d else None.

Definition is_digit (c : ascii) : bool := bool_decide (is_Some (digit_value 10 c)).

Fixpoint digits_value (base acc : Z) (l : list ascii) : option Z :=
  match l with
  | [] => Some acc
  | c :: l' =>
      match digit_value base c with
      | Some d => digits_value base (acc * base + d) l'
      | None => None
      end
  end.

Fixpoint span_digits (l : list ascii) : list ascii * list ascii :=
  match l with
  | [] => ([], [])
  | c :: l' =>
      if is_digit c then let '(ds, r) := span_digits l' in (c :: ds, r) else ([], l)
  end.

Definition nonempty {A} (l : list A) : bool := negb (Nat.eqb (length l) 0).

Inductive literal :=
| LitInfinity (neg : bool)
| LitDecimal (neg : bool) (m e : Z)      (* (-1)^neg * m * 10^e *)
| LitInteger (m : Z).

(** ExponentPart_opt followed by the end of the input; [m] and [e] are the
    digits read so far and their scale. *)
Definition exponent_part (neg : bool) (m e : Z) (l : list ascii) : option literal :=
  match l with
  | [] => Some (LitDecimal neg m e)
  | c :: l1 =>
      if Ascii.eqb c "e" || Ascii.eqb c "E" then
        let '(eneg, l2) :=
          match l1 with
          | s :: r => if Ascii.eqb s "+" then (false, r)
                      else if Ascii.eqb s "-" then (true, r) else (false, l1)
          | [] => (false, l1)
          end in
        match digits_value 10 0 l2 with
        | Some x => if nonempty l2
                    then Some (LitDecimal neg m (e + (if eneg then - x else x)))
                    else None
        | None => None
        end
      else None
  end.

(** StrUnsignedDecimalLiteral *)
Definition unsigned_decimal (neg : bool) (l : list ascii) : option literal :=
  if bool_decide (l = list_ascii_of_string "Infinity") then Some (LitInfinity neg) else
  let '(ip, r1) := span_digits l in
  let '(fp, r2) :=
    match r1 with
    | c :: r => if Ascii.eqb c "." then span_digits r else ([], r1)
    | [] => ([], r1)
    end in
  if nonempty ip || nonempty fp then
    match digits_value 10 0 (ip ++ fp) with
    | Some m => exponent_part neg m (- Z.of_nat (length fp)) r2
    | None => None
    end
  else None.

(** NonDecimalIntegerLiteral *)
Definition non_decimal (l : list ascii) : option literal :=
  match l with
  | z :: b :: ds =>
      if Ascii.eqb z "0" && nonempty ds then
        let base : Z :=
          if Ascii.eqb b "x" || Ascii.eqb b "X" then 16
          else if Ascii.eqb b "o" || Ascii.eqb b "O" then 8
          else if Ascii.eqb b "b" || Ascii.eqb b "B" then 2 else 0 in
        LitInteger <$> digits_value base 0 ds
      else None
  | _ => None
  end.

(** StrNumericLiteral *)
Definition numeric_literal (l : list ascii) : option literal :=
  match non_decimal l with
  | Some lit => Some lit
  | None =>
      match l with
      | s :: r => if Ascii.eqb s "+" then unsigned_decimal false r
                  else if Ascii.eqb s "-" then unsigned_decimal true r
                  else unsigned_decimal false l
      | [] => Some (LitInteger 0)
      end
  end.

(** Rounding of [(-1)^neg * m * 10^e], [0 <= m], to binary64. *)
Definition round_decimal (neg : bool) (m e : Z) : spec_float :=
  if 0 <=? e then
    match m * 10 ^ e with
    | Zpos p => binary_round prec emax neg p 0
    | _ => S754_zero neg
    end
  else
    match m with
    | Zpos _ =>
        let '(q, e', loc) := SFdiv_core_binary prec emax m 0 (10 ^ (- e)) 0 in
        binary_round_aux prec emax neg q e' loc
    | _ => S754_zero neg
    end.

Definition literal_value (lit : literal) : number :=
  match lit with
  | LitInfinity neg => SF2Prim (S754_infinity neg)
  | LitDecimal neg m e => SF2Prim (round_decimal neg m e)
  | LitInteger m => SF2Prim (round_decimal false m 0)
  end.

Definition StringToNumber (s : string) : number :=
  match numeric_literal (trim (list_ascii_of_string s)) with
  | Some lit => literal_value lit
  | None => nan
  end.

End JsNumber.

(** [Number(s)] *)
Definition Number (s : string) : number := JsNumber.StringToNumber s.

(** ** Values *)

(** What [unknown] can hold for a cell of a parsed trace: the values of JSON,
    and [undefined] for a property that is not there. *)
Inductive JsValue :=
| JUndefined
| JNull
| JBoolean (b : bool)
| JNumber (n : number)
| JString (s : string)
| JArray (elems : list JsValue)
| JObject (props : gmap string JsValue).

(** [typeof value] *)
Definition typeof (value : JsValue) : string :=
  match value with
  | JUndefined => "undefined"
  | JNull => "object"
  | JBoolean _ => "boolean"
  | JNumber _ => "number"
  | JString _ => "string"
  | JArray _ => "object"
  | JObject _ => "object"
  end.

(** [value !== null] *)
Definition not_null (value : JsValue) : bool :=
  match value with JNull => false | _ => true end.

(** The index an array property name denotes: a canonical decimal numeral. *)
Definition array_index (key : string) : option nat :=
  let l := list_ascii_of_string key in
  match l with
  | [] => None
  | c :: r =>
      if Ascii.eqb c "0" && JsNumber.nonempty r then None
      else Z.to_nat <$> JsNumber.digits_value 10 0 l
  end.

(** [value[key]] on the own properties of an object or array *)
Definition get (value : JsValue) (key : string) : JsValue :=
  match value with
  | JObject props => default JUndefined (props !! key)
  | JArray elems =>
      if String.eqb key "length"
      then JNumber (SF2Prim (JsNumber.round_decimal false (Z.of_nat (length elems)) 0))
      else match array_index key with
           | Some i => default JUndefined (elems !! i)
           | None => JUndefined
           end
  | _ => JUndefined
  end.

(** [key in value], for a [value] that is an object or an array *)
Definition has (key : string) (value : JsValue) : bool :=
  match value with
  | JObject props => bool_decide (is_Some (props !! key))
  | JArray elems =>
      String.eqb key "length" ||
      match array_index key with
      | Some i => bool_decide (i < length elems)
      | None => false
      end
  | _ => false
  end.

(** [x ?? d] *)
Definition nullish {A} (x : option A) (d : A) : A := default d x.

(** [x !== null] for [x : T | null] *)
Definition is_not_null {A} (x : option A) : bool :=
  match x with Some _ => true | None => false end.

(** ** ITF types *)

(** [ItfState]: an object whose properties are the variables of the state
    (and ["#meta"]). *)
Definition ItfState : Type := gmap string JsValue.

(** [state[v]] *)
Definition state_get (state : ItfState) (v : string) : JsValue :=
  default JUndefined (state !! v).

Record VariantChange := {
  step : nat;
  fromTag : string;
  toTag : string;
}.

(** ** Cell extraction *)

(** Extract a numeric value from an ITF cell, or return null. *)
Definition extractNumeric (value : JsValue) : option number :=
  if String.eqb (typeof value) "number" then
    match value with
    | JNumber n => Some n
    | _ => None
    end
  else if String.eqb (typeof value) "object" &&
          not_null value &&
          has "#bigint" value &&
          String.eqb (typeof (get value "#bigint")) "string"
  then match get value "#bigint" with
       | JString s => Some (Number s)
       | _ => None
       end
  else None.

(** Extract variant tag from an ITF cell, or return null. *)
Definition extractVariantTag (value : JsValue) : option string :=
  if String.eqb (typeof value) "object" &&
     not_null value &&
     has "tag" value &&
     String.eqb (typeof (get value "tag")) "string"
  then match get value "tag" with
       | JString s => Some s
       | _ => None
       end
  else None.

(** ** Classification *)

Record Classified := {
  numeric : list string;
  variant : list string;
}.

(** The body of the loop of [classifyVars]. *)
Definition classify_step (state : ItfState) (acc : Classified) (v : string) : Classified :=
  let val := state_get state v in
  if is_not_null (extractNumeric val) then
    {| numeric := numeric acc ++ [v]; variant := variant acc |}
  else if is_not_null (extractVariantTag val) then
    {| numeric := numeric acc; variant := variant acc ++ [v] |}
  else acc.

(** Classify variables as numeric or variant based on the first state. *)
Definition classifyVars (state : ItfState) (varNames : list string) : Classified :=
  foldl (classify_step state) {| numeric := []; variant := [] |} varNames.

(** ** Series *)

(** A [for ... of] loop whose body can throw. *)
Fixpoint for_of {S A : Type} (body : S → A → option S) (l : list A) (s : S) : option S :=
  match l with
  | [] => Some s
  | x :: l' => match body s x with Some s' => for_of body l' s' | None => None end
  end.

(** The object [series] starts as [{}] and is only assigned to
    ([series[k] = ...]) and read ([series[k]]): it is a finite map from the
    names assigned to what they hold.  One name is special in JavaScript:
    [series["__proto__"] = a] creates no property but makes [a] the prototype
    of the object, and [series["__proto__"]] reads the prototype back.  The
    map keeps that slot under the name [__proto__] like any other name, so
    reads and writes are uniform; the slot is not an own property of the
    object, and [own_keys] leaves it out. *)

(** [series[k] = []] *)
Definition series_init (series : gmap string (list number)) (k : string)
  : gmap string (list number) :=
  <[k := []]> series.

(** [series[k].push(x)]: a TypeError when [series[k]] is [undefined]. *)
Definition series_push (series : gmap string (list number)) (k : string) (x : number)
  : option (gmap string (list number)) :=
  match series !! k with
  | Some arr => Some (<[k := arr ++ [x]]> series)
  | None => None
  end.

(** [Object.keys(series)], as a set: the own properties of the object, which
    [Object.entries(series)] in [Chart.tsx] enumerates. *)
Definition own_keys (series : gmap string (list number)) : gset string :=
  dom series ∖ {[ "__proto__" ]}.

(** The sample of variable [v] in [state]: [extractNumeric(state[v]) ?? 0]. *)
Definition sample (state : ItfState) (v : string) : number :=
  nullish (extractNumeric (state_get state v)) 0%float.

(** Extract time series dict {shortName: values[]} from states. *)
Definition buildSeries (states : list ItfState) (varNames : list string)
  : option (gmap string (list number)) :=
  let series := foldl (fun series v => series_init series (stripPrefix v)) ∅ varNames in
  for_of (fun series state =>
            for_of (fun series v => series_push series (stripPrefix v) (sample state v))
                   varNames series)
         states series.

(** Extract variant tag series for a single variable. *)
Definition buildVariantSeries (states : list ItfState) (varName : string)
  : list (option string) :=
  (fun s => extractVariantTag (state_get s varName)) <$> states.

(** ** Change detection *)

(** [for (let i = lo; i < hi; i++)] *)
Definition for_range {S : Type} (lo hi : nat) (body : S → nat → S) (s : S) : S :=
  foldl body s (seq lo (hi - lo)).

(** [tags[i]]: [None] is [undefined] (a read out of range), [Some None] is
    [null]. *)
Definition tag_at (tags : list (option string)) (i : nat) : option (option string) :=
  tags !! i.

(** [a !== b] on values that are a string, [null] or [undefined] *)
Definition strict_neq (a b : option (option string)) : bool :=
  bool_decide (a ≠ b).

(** [t ?? d] for such a value *)
Definition tag_or (t : option (option string)) (d : string) : string :=
  match t with
  | Some (Some s) => s
  | _ => d
  end.

(** The body of the loop of [findVariantChanges]. *)
Definition changes_step (tags : list (option string)) (changes : list VariantChange) (i : nat)
  : list VariantChange :=
  if strict_neq (tag_at tags i) (tag_at tags (i - 1)) then
    changes ++ [ {| step := i;
                    fromTag := tag_or (tag_at tags (i - 1)) "?";
                    toTag := tag_or (tag_at tags i) "?" |} ]
  else changes.

(** Find variant change points. *)
Definition findVariantChanges (tags : list (option string)) : list VariantChange :=
  for_range 1 (length tags) (changes_step tags) [].

(** Find the full qualified var name matching a short name. *)
Definition findVariantVar (varNames : list string) (shortName : string) : option string :=
  List.find (fun v => String.eqb (stripPrefix v) shortName) varNames.

(** ** Notions of the specification *)

(** The series of one variable, as the specification understands it: its
    sample in every state, in trace order. *)
Definition series_of (states : list ItfState) (v : string) : list number :=
  (fun state => sample state v) <$> states.

(** The input variables that share the short name [k], in input order. *)
Definition colliding (k : string) (varNames : list string) : list string :=
  filter (fun v => stripPrefix v = k) varNames.

(** What one state contributes under the short name [k]: a sample for every
    input variable with that short name, in input order. *)
Definition row (k : string) (varNames : list string) (state : ItfState) : list number :=
  sample state <$> colliding k varNames.

(** What all the states contribute under [k], in trace order. *)
Definition rows (k : string) (varNames : list string) (states : list ItfState) : list number :=
  concat (row k varNames <$> states).

(** The test of the classifier on a variable. *)
Definition is_numeric (state : ItfState) (v : string) : bool :=
  is_not_null (extractNumeric (state_get state v)).

Definition is_variant (state : ItfState) (v : string) : bool :=
  negb (is_numeric state v) && is_not_null (extractVariantTag (state_get state v)).

(** A string that is no StringNumericLiteral. *)
Definition unparseable (s : string) : Prop :=
  JsNumber.numeric_literal (JsNumber.trim (list_ascii_of_string s)) = None.

(** The tag at step [i] differs from the one before. *)
Definition changes_at (tags : list (option string)) (i : nat) : Prop :=
  tags !! i ≠ tags !! (i - 1).

#[global] Instance changes_at_dec (tags : list (option string)) (i : nat) :
  Decision (changes_at tags i).
Proof. unfold changes_at. apply _. Defined.

(** The event the detector emits for a change at step [i]. *)
Definition event_at (tags : list (option string)) (i : nat) : VariantChange :=
  {| step := i;
     fromTag := tag_or (tag_at tags (i - 1)) "?";
     toTag := tag_or (tag_at tags i) "?" |}.

(** The detector as a walk along the sequence that remembers the tag
    before: the events of [l], whose first entry is step [i] and follows the
    tag [prev]. *)
Fixpoint changes_from (prev : option string) (i : nat) (l : list (option string))
  : list VariantChange :=
  match l with
  | [] => []
  | t :: l' =>
      (if decide (t ≠ prev)
       then [ {| step := i; fromTag := default "?" prev; toTag := default "?" t |} ]
       else []) ++ changes_from t (S i) l'
  end.

(** ** The trace and what [App] derives from it *)

(** [ItfTrace]; nothing reads its ["#meta"]. *)
Record ItfTrace := {
  meta : gmap string JsValue;
  vars : list string;
  states : list ItfState;
}.

(** [Threshold] *)
Record Threshold := {
  label : string;
  value : number;
}.

Module App.

(** [classifyVars(trace.states[0], trace.vars)].  For a trace without states
    [trace.states[0]] is [undefined], and the first read [state[v]] of the
    classifier throws. *)
Definition classify (trace : ItfTrace) : option Classified :=
  match states trace !! 0 with
  | Some state => Some (classifyVars state (vars trace))
  | None =>
      match vars trace with
      | [] => Some {| numeric := []; variant := [] |}
      | _ :: _ => None
      end
  end.

(** The memo [{ numericVars, variantVars }]: the names of the check boxes and
    of the marker menu. *)
Definition numericVars (trace : option ItfTrace) : option (list string) :=
  match trace with
  | None => Some []
  | Some t => (fun c => stripPrefix <$> numeric c) <$> classify t
  end.

Definition variantVars (trace : option ItfTrace) : option (list string) :=
  match trace with
  | None => Some []
  | Some t => (fun c => stripPrefix <$> variant c) <$> classify t
  end.

(** The memo [series]. *)
Definition series (trace : option ItfTrace) : option (gmap string (list number)) :=
  match trace with
  | None => Some ∅
  | Some t =>
      match classify t with
      | Some c => buildSeries (states t) (numeric c)
      | None => None
      end
  end.

(** The memo [steps]: [Array.from({ length: trace.states.length }, (_, i) => i)]. *)
Definition steps (trace : option ItfTrace) : list nat :=
  match trace with
  | None => []
  | Some t => seq 0 (length (states t))
  end.

(** The memo [variantChanges].  [!markedVariant] holds for [null] and for the
    empty string, [!fullVar] for [undefined] and for the empty string. *)
Definition variantChanges (trace : option ItfTrace) (markedVariant : option string)
  : list VariantChange :=
  match trace, markedVariant with
  | Some t, Some marked =>
      if String.eqb marked "" then [] else
      match findVariantVar (vars t) marked with
      | Some fullVar =>
          if String.eqb fullVar "" then []
          else findVariantChanges (buildVariantSeries (states t) fullVar)
      | None => []
      end
  | _, _ => []
  end.

(** [handleToggleVar], on the set [selectedVars]. *)
Definition handleToggleVar (name : string) (prev : gset string) : gset string :=
  if decide (name ∈ prev) then prev ∖ {[ name ]} else prev ∪ {[ name ]}.

(** [onAddThreshold]: [[...prev, t]] *)
Definition onAddThreshold (t : Threshold) (prev : list Threshold) : list Threshold :=
  prev ++ [t].

(** [onRemoveThreshold]: [prev.filter((_, idx) => idx !== i)] *)
Definition onRemoveThreshold (i : nat) (prev : list Threshold) : list Threshold :=
  snd <$> filter (fun p => fst p ≠ i) (zip (seq 0 (length prev)) prev).

End App.

(** ** Thresholds: the input line of [Controls] *)

Module Controls.

(** [s.trim()]: it strips the white space and line terminators that [Number]
    strips. *)
Definition trim (s : string) : string :=
  string_of_list_ascii (JsNumber.trim (list_ascii_of_string s)).

(** Whether a line terminator occurs: LF, CR, and U+2028 and U+2029 in their
    UTF-8 encoding.  These are the characters [.] does not match. *)
Fixpoint has_line_terminator (l : list ascii) : bool :=
  match l with
  | [] => false
  | _ :: l' =>
      is_not_null
        (JsNumber.drop_any [[10]; [13]; [226; 128; 168]; [226; 128; 169]]%Z l)
      || has_line_terminator l'
  end.

(** The groups of [/^(.+)=(.+)$/] when the first one takes exactly [n]
    characters: the next character is [=], the second group takes the rest up
    to the end, which is not empty, and neither group holds a line
    terminator. *)
Definition groups_at (n : nat) (input : list ascii) : option (list ascii * list ascii) :=
  let g1 := take n input in
  match drop n input with
  | c :: g2 =>
      if Ascii.eqb c "=" && JsNumber.nonempty g2 &&
         negb (has_line_terminator g1) && negb (has_line_terminator g2)
      then Some (g1, g2)
      else None
  | [] => None
  end.

(** The groups when the first one has at most [n] characters and at least
    one.  The first group is greedy: the engine gives it as many characters
    as it can and takes them back one at a time until the rest of the pattern
    matches, so its lengths are tried from the longest down. *)
Fixpoint match_groups (n : nat) (input : list ascii) : option (list ascii * list ascii) :=
  match n with
  | O => None
  | S n' =>
      match groups_at n input with
      | Some groups => Some groups
      | None => match_groups n' input
      end
  end.

(** [thresholdInput.match(/^(.+)=(.+)$/)]: [match[1]] and [match[2]] *)
Definition match_threshold (input : string) : option (string * string) :=
  match match_groups (String.length input) (list_ascii_of_string input) with
  | Some (g1, g2) => Some (string_of_list_ascii g1, string_of_list_ascii g2)
  | None => None
  end.

(** [isNaN(value)] on a number *)
Definition isNaN (x : number) : bool := PrimFloat.is_nan x.

(** The state the handler touches: the text of the input line, and the list
    of thresholds that [App] holds. *)
Record State := {
  thresholdInput : string;
  thresholds : list Threshold;
}.

Definition handleAddThreshold (st : State) : State :=
  match match_threshold (thresholdInput st) with
  | Some (m1, m2) =>
      let value := Number (trim m2) in
      if negb (isNaN value) then
        {| thresholdInput := "";
           thresholds := App.onAddThreshold {| label := trim m1; value := value |}
                                            (thresholds st) |}
      else st
  | None => st
  end.

(** [handleThresholdKey] *)
Definition handleThresholdKey (key : string) (st : State) : State :=
  if String.eqb key "Enter" then handleAddThreshold st else st.

End Controls.

(** * Properties *)

(** ** Strings and the separator *)

Section Strings.

Local Abbreviation sep := "::" (only parsing).
Local Abbreviation scan := (JsString.split_scan "::" 0) (only parsing).

Lemma append_cons (c : ascii) (s t : string) : String c s +:+ t = String c (s +:+ t).
Proof. reflexivity. Qed.

Lemma append_nil_l (s : string) : "" +:+ s = s.
Proof. reflexivity. Qed.

Lemma append_nil_r (s : string) : s +:+ "" = s.
Proof. induction s as [|c s IH]; [done|]. by rewrite append_cons, IH. Qed.

Lemma append_assoc (a b c : string) : (a +:+ b) +:+ c = a +:+ b +:+ c.
Proof. induction a as [|x a IH]; [done|]. by rewrite !append_cons, IH. Qed.

Lemma append_snoc (cur : string) (c : ascii) (s : string) :
  (cur +:+ String c "") +:+ s = cur +:+ String c s.
Proof. by rewrite append_assoc. Qed.

Lemma scan_nil (cur : string) : scan cur "" = [cur].
Proof. reflexivity. Qed.

Lemma scan_sep (cur r : string) : scan cur (sep +:+ r) = cur :: scan "" r.
Proof. reflexivity. Qed.

Lemma scan_char (cur : string) (c : ascii) (r : string) :
  JsString.startsWith sep (String c r) = false →
  scan cur (String c r) = scan (cur +:+ String c "") r.
Proof. intros H. cbn [JsString.split_scan]. by rewrite H. Qed.

(** The only way for a string to start with the separator. *)
Lemma startsWith_sep_inv (s : string) :
  JsString.startsWith sep s = true → ∃ r, s = sep +:+ r.
Proof.
  destruct s as [|a [|b r]]; cbn [JsString.startsWith]; try done.
  - by destruct (Ascii.eqb _ a).
  - destruct (Ascii.eqb ":" a) eqn:Ha; [|done].
    destruct (Ascii.eqb ":" b) eqn:Hb; [|done].
    apply Ascii.eqb_eq in Ha, Hb. subst. by exists r.
Qed.

(** Induction that follows the scan: it moves on by a separator or by one
    character. *)
Lemma scan_ind (P : string → Prop) :
  P "" →
  (∀ r, P r → P (sep +:+ r)) →
  (∀ c r, JsString.startsWith sep (String c r) = false → P r → P (String c r)) →
  ∀ s, P s.
Proof.
  intros Hnil Hsep Hchar s.
  assert (H : ∀ n s, String.length s ≤ n → P s); [|by apply (H (String.length s))].
  clear s. induction n as [|n IH]; intros [|c r] Hlen; cbn [String.length] in Hlen;
    try done; try lia.
  destruct (JsString.startsWith sep (String c r)) eqn:Hs.
  - apply startsWith_sep_inv in Hs as [r' Hr']. rewrite Hr'. apply Hsep, IH.
    rewrite !append_cons, append_nil_l in Hr'. injection Hr' as -> ->.
    cbn [String.length] in Hlen. lia.
  - apply Hchar; [done|]. apply IH. lia.
Qed.

Lemma scan_nonempty (s cur : string) : scan cur s ≠ [].
Proof.
  revert cur. induction s as [|r IH|c r Hs IH] using scan_ind; intros cur.
  - done.
  - by rewrite scan_sep.
  - rewrite scan_char; auto.
Qed.

Lemma join_cons (p : string) (ps : list string) :
  ps ≠ [] → JsString.join sep (p :: ps) = p +:+ sep +:+ JsString.join sep ps.
Proof. by destruct ps. Qed.

(** Joining the parts gives the string back. *)
Lemma join_scan (s cur : string) : JsString.join sep (scan cur s) = cur +:+ s.
Proof.
  revert cur. induction s as [|r IH|c r Hs IH] using scan_ind; intros cur.
  - by rewrite scan_nil, append_nil_r.
  - rewrite scan_sep, join_cons by apply scan_nonempty. by rewrite IH.
  - rewrite scan_char, IH, append_snoc; auto.
Qed.

(** A string without separator is a single part. *)
Lemma scan_no_sep (s cur : string) :
  JsString.includes sep s = false → scan cur s = [cur +:+ s].
Proof.
  revert cur. induction s as [|c r IH]; intros cur Hinc.
  - by rewrite scan_nil, append_nil_r.
  - cbn [JsString.includes] in Hinc. apply orb_false_iff in Hinc as [Hs Hr].
    rewrite scan_char, IH, append_snoc; auto.
Qed.

(** The part being read is a prefix of the first part. *)
Lemma scan_cur (s cur : string) :
  ∃ h t, scan "" s = h :: t ∧ scan cur s = (cur +:+ h) :: t.
Proof.
  revert cur. induction s as [|r IH|c r Hs IH] using scan_ind; intros cur.
  - exists "", []. by rewrite !scan_nil, append_nil_r.
  - exists "", (scan "" r). by rewrite !scan_sep, append_nil_r.
  - destruct (IH (cur +:+ String c "")) as (h & t & Hh & Hc).
    destruct (IH (String c "")) as (h' & t' & Hh' & Hc').
    rewrite Hh in Hh'. injection Hh' as <- <-.
    exists (String c h), t. rewrite !scan_char by done. rewrite append_nil_l.
    by rewrite Hc', Hc, append_snoc.
Qed.

(** The last part holds no separator. *)
Lemma scan_last_no_sep (s : string) :
  ∀ p, last (scan "" s) = Some p → JsString.includes sep p = false.
Proof.
  induction s as [|r IH|c r Hs IH] using scan_ind; intros p.
  - rewrite scan_nil. by intros [= <-].
  - rewrite scan_sep. pose proof (scan_nonempty r "") as Hne.
    destruct (scan "" r) as [|h t] eqn:E; [done|]. rewrite last_cons_cons. apply IH.
  - rewrite scan_char by done. rewrite append_nil_l.
    destruct (scan_cur r (String c "")) as (h & t & Hh & Hc). rewrite Hc.
    destruct t as [|h' t].
    + intros [= <-].
      pose proof (join_scan r "") as Hj. rewrite Hh in Hj.
      cbn [JsString.join] in Hj. rewrite append_nil_l in Hj. subst h.
      rewrite append_cons, append_nil_l.
      cbn [JsString.includes]. rewrite Hs. apply IH. by rewrite Hh.
    + rewrite last_cons_cons. intros Hp. apply IH. by rewrite Hh, last_cons_cons.
Qed.

(** A segment without separator that does not end in a colon, followed by a
    separator, is cut exactly at that separator. *)
Lemma scan_segment (p rest cur : string) :
  JsString.includes sep p = false →
  JsString.last_char_is ":" p = false →
  scan cur (p +:+ sep +:+ rest) = (cur +:+ p) :: scan "" rest.
Proof.
  revert cur. induction p as [|c p IH]; intros cur Hinc Hlast.
  - by rewrite append_nil_l, scan_sep, append_nil_r.
  - cbn [JsString.includes] in Hinc. apply orb_false_iff in Hinc as [Hs Hr].
    assert (Hs' : JsString.startsWith sep (String c (p +:+ sep +:+ rest)) = false).
    { destruct p as [|d p].
      - cbn [JsString.last_char_is] in Hlast. cbn [JsString.startsWith].
        by rewrite (Ascii.eqb_sym ":" c), Hlast.
      - rewrite append_cons. cbn [JsString.startsWith] in Hs |- *.
        destruct (Ascii.eqb ":" c); [|done]. by destruct (Ascii.eqb ":" d). }
    assert (Hlast' : JsString.last_char_is ":" p = false).
    { by destruct p. }
    rewrite append_cons, scan_char by done. rewrite IH by done.
    by rewrite append_snoc.
Qed.

End Strings.

(** ** Name normalisation: [stripPrefix] *)

Lemma split_sep (name : string) : JsString.split name "::" = JsString.split_scan "::" 0 "" name.
Proof. reflexivity. Qed.

(** The read [parts[parts.length - 1]] is always in range. *)
Lemma stripPrefix_defined (name : string) :
  let parts := JsString.split name "::" in
  parts !! (length parts - 1) = Some (stripPrefix name).
Proof.
  unfold stripPrefix. cbn zeta. rewrite split_sep.
  pose proof (scan_nonempty name "") as Hne.
  destruct (JsString.split_scan "::" 0 "" name) as [|h t] eqn:E; [done|].
  destruct (lookup_lt_is_Some_2 (h :: t) (length (h :: t) - 1)) as [p Hp].
  { simpl. lia. }
  by rewrite Hp.
Qed.

Lemma stripPrefix_last (name : string) :
  last (JsString.split name "::") = Some (stripPrefix name).
Proof.
  rewrite last_lookup, <- (stripPrefix_defined name). f_equal. lia.
Qed.

Lemma stripPrefix_no_sep (name : string) :
  JsString.includes "::" name = false → stripPrefix name = name.
Proof.
  intros H. pose proof (stripPrefix_last name) as Hl.
  rewrite split_sep, scan_no_sep in Hl by done. by injection Hl as <-.
Qed.

Lemma stripPrefix_clean (name : string) :
  JsString.includes "::" (stripPrefix name) = false.
Proof. apply (scan_last_no_sep name), stripPrefix_last. Qed.

Lemma stripPrefix_idempotent (name : string) :
  stripPrefix (stripPrefix name) = stripPrefix name.
Proof. apply stripPrefix_no_sep, stripPrefix_clean. Qed.

(** Splitting a name joined from well-delimited segments gives the segments
    back. *)
Lemma split_join (segs : list string) (final : string) :
  (∀ p, p ∈ segs ++ [final] → JsString.includes "::" p = false) →
  (∀ p, p ∈ segs → JsString.last_char_is ":" p = false) →
  JsString.split (JsString.join "::" (segs ++ [final])) "::" = segs ++ [final].
Proof.
  rewrite split_sep. induction segs as [|p segs IH]; intros Hinc Hlast.
  - cbn [app JsString.join]. rewrite scan_no_sep; [done|].
    apply Hinc, elem_of_cons. by left.
  - rewrite <- app_comm_cons, join_cons by (by destruct segs).
    rewrite scan_segment, IH.
    + done.
    + intros q Hq. apply Hinc. rewrite <- app_comm_cons. apply elem_of_cons. by right.
    + intros q Hq. apply Hlast, elem_of_cons. by right.
    + apply Hinc. rewrite <- app_comm_cons. apply elem_of_cons. by left.
    + apply Hlast, elem_of_cons. by left.
Qed.

(** C8, as amended.  Name normalisation is idempotent; a name joined from
    [k >= 1] segments with the separator, where no segment contains the
    separator and no segment but the last ends in a colon, normalises to its
    last segment; a name without separator is returned unchanged. *)
Theorem stripPrefix_normalises :
  (∀ name, stripPrefix (stripPrefix name) = stripPrefix name) ∧
  (∀ segs final,
     (∀ p, p ∈ segs ++ [final] → JsString.includes "::" p = false) →
     (∀ p, p ∈ segs → JsString.last_char_is ":" p = false) →
     stripPrefix (JsString.join "::" (segs ++ [final])) = final) ∧
  (∀ name, JsString.includes "::" name = false → stripPrefix name = name).
Proof.
  split; [exact stripPrefix_idempotent|]. split; [|exact stripPrefix_no_sep].
  intros segs final Hinc Hlast.
  pose proof (stripPrefix_last (JsString.join "::" (segs ++ [final]))) as Hl.
  rewrite split_join, last_snoc in Hl by done. by injection Hl as <-.
Qed.

(** The amended C8 at the name [a::b::varName]. *)
Lemma stripPrefix_normalises_witness :
  stripPrefix (JsString.join "::" (["a"; "b"] ++ ["varName"])) = "varName".
Proof.
  apply (proj1 (proj2 stripPrefix_normalises)).
  - intros p Hp. repeat (apply elem_of_cons in Hp as [->|Hp]; [reflexivity|]).
    by apply elem_of_nil in Hp.
  - intros p Hp. repeat (apply elem_of_cons in Hp as [->|Hp]; [reflexivity|]).
    by apply elem_of_nil in Hp.
Defined.

(** C8 as stated fails: the segments [a:] and [b] hold no separator, yet the
    name [a:::b] joined from them is cut at its leftmost separator and
    normalises to [:b]. *)
Lemma stripPrefix_segments_counterexample :
  ¬ (∀ segs final,
       (∀ p, p ∈ segs ++ [final] → JsString.includes "::" p = false) →
       stripPrefix (JsString.join "::" (segs ++ [final])) = final).
Proof.
  intros H. specialize (H ["a:"] "b").
  assert (Hx : stripPrefix (JsString.join "::" (["a:"] ++ ["b"])) = ":b") by reflexivity.
  rewrite Hx in H. discriminate H.
  intros p Hp. repeat (apply elem_of_cons in Hp as [->|Hp]; [reflexivity|]).
  by apply elem_of_nil in Hp.
Qed.

(** ** Cell extraction *)

(** C6.  The wrapper [{ "#bigint": "42" }] extracts to 42 and the plain cell 7
    to 7; the cell [{"tag":"Idle"}] has no numeric value and has the tag
    [Idle]. *)
Theorem extract_examples :
  extractNumeric (JObject {[ "#bigint" := JString "42" ]}) = Some 42%float ∧
  extractNumeric (JNumber 7) = Some 7%float ∧
  extractNumeric (JObject {[ "tag" := JString "Idle" ]}) = None ∧
  extractVariantTag (JObject {[ "tag" := JString "Idle" ]}) = Some "Idle".
Proof. repeat split; vm_compute; reflexivity. Qed.

Lemma state_get_Some (state : ItfState) (v : string) (value : JsValue) :
  state !! v = Some value → state_get state v = value.
Proof. unfold state_get. by intros ->. Qed.

Lemma state_get_None (state : ItfState) (v : string) :
  state !! v = None → state_get state v = JUndefined.
Proof. unfold state_get. by intros ->. Qed.

Lemma extractNumeric_bigint (props : gmap string JsValue) (s : string) :
  props !! "#bigint" = Some (JString s) →
  extractNumeric (JObject props) = Some (Number s).
Proof.
  intros H. unfold extractNumeric, has, get. rewrite H.
  rewrite bool_decide_eq_true_2 by eauto. reflexivity.
Qed.

Lemma Number_unparseable (s : string) : unparseable s → Number s = nan.
Proof. unfold unparseable, Number, JsNumber.StringToNumber. by intros ->. Qed.

(** ** Classification *)

Lemma classify_step_numeric (state : ItfState) (acc : Classified) (v : string) :
  numeric (classify_step state acc v) =
  numeric acc ++ (if is_numeric state v then [v] else []).
Proof.
  unfold classify_step, is_numeric.
  destruct (is_not_null (extractNumeric _)); [done|].
  destruct (is_not_null (extractVariantTag _)); simpl; by rewrite app_nil_r.
Qed.

Lemma classify_step_variant (state : ItfState) (acc : Classified) (v : string) :
  variant (classify_step state acc v) =
  variant acc ++ (if is_variant state v then [v] else []).
Proof.
  unfold classify_step, is_variant, is_numeric.
  destruct (is_not_null (extractNumeric _)); simpl; [by rewrite app_nil_r|].
  destruct (is_not_null (extractVariantTag _)); simpl; by rewrite ?app_nil_r.
Qed.

(** The loop of the classifier keeps, in input order, the names that pass
    each test. *)
Lemma classify_loop (state : ItfState) (varNames : list string) (acc : Classified) :
  let res := foldl (classify_step state) acc varNames in
  numeric res = numeric acc ++ filter (fun v => is_numeric state v) varNames ∧
  variant res = variant acc ++ filter (fun v => is_variant state v) varNames.
Proof.
  revert acc. induction varNames as [|v vs IH]; intros acc; cbn zeta.
  - by rewrite !app_nil_r.
  - cbn [foldl]. destruct (IH (classify_step state acc v)) as [Hn Hv].
    rewrite Hn, Hv, classify_step_numeric, classify_step_variant, !filter_cons.
    split.
    + destruct (is_numeric state v); simpl; by rewrite <- ?app_assoc.
    + destruct (is_variant state v); simpl; by rewrite <- ?app_assoc.
Qed.

Lemma classifyVars_numeric (state : ItfState) (varNames : list string) :
  numeric (classifyVars state varNames) = filter (fun v => is_numeric state v) varNames.
Proof. apply (classify_loop state varNames). Qed.

Lemma classifyVars_variant (state : ItfState) (varNames : list string) :
  variant (classifyVars state varNames) = filter (fun v => is_variant state v) varNames.
Proof. apply (classify_loop state varNames). Qed.

Lemma classified_apart (state : ItfState) (varNames : list string) (v : string) :
  v ∈ numeric (classifyVars state varNames) →
  v ∈ variant (classifyVars state varNames) → False.
Proof.
  rewrite classifyVars_numeric, classifyVars_variant. intros Hn Hv.
  apply list_elem_of_filter in Hn as [Hn _]. apply list_elem_of_filter in Hv as [Hv _].
  unfold is_variant in Hv. destruct (is_numeric state v); done.
Qed.

(** C7.  The numeric group and the variant group are disjoint: no name is in
    both. *)
Theorem classifyVars_disjoint (state : ItfState) (varNames : list string) :
  numeric (classifyVars state varNames) ## variant (classifyVars state varNames).
Proof. intros v. apply classified_apart. Qed.

(** C9.  A big-integer wrapper with a string payload extracts to the numeric
    parse of the payload, which is NaN when the payload does not parse, and
    never to null; a variable whose first-state cell is such a wrapper is in
    the numeric group and not in the variant group. *)
Theorem bigint_wrapper_numeric
    (props : gmap string JsValue) (s : string)
    (state : ItfState) (varNames : list string) (v : string) :
  props !! "#bigint" = Some (JString s) →
  state !! v = Some (JObject props) →
  v ∈ varNames →
  extractNumeric (JObject props) = Some (Number s) ∧
  (unparseable s → extractNumeric (JObject props) = Some nan) ∧
  v ∈ numeric (classifyVars state varNames) ∧
  v ∉ variant (classifyVars state varNames).
Proof.
  intros Hp Hs Hv. pose proof (extractNumeric_bigint props s Hp) as He.
  assert (Hn : v ∈ numeric (classifyVars state varNames)).
  { rewrite classifyVars_numeric. apply list_elem_of_filter. split; [|done].
    unfold is_numeric. by rewrite (state_get_Some state v _ Hs), He. }
  repeat split; try done.
  - intros Hu. by rewrite He, (Number_unparseable s Hu).
  - intros Hv'. by apply (classified_apart state varNames v).
Qed.

(** C9 at a wrapper whose payload is not a number. *)
Lemma bigint_wrapper_numeric_witness :
  let props : gmap string JsValue := {[ "#bigint" := JString "12abc" ]} in
  let state : ItfState := {[ "m::n" := JObject props ]} in
  extractNumeric (JObject props) = Some (Number "12abc") ∧
  (unparseable "12abc" → extractNumeric (JObject props) = Some nan) ∧
  "m::n" ∈ numeric (classifyVars state ["m::n"]) ∧
  "m::n" ∉ variant (classifyVars state ["m::n"]).
Proof.
  cbn zeta. apply bigint_wrapper_numeric.
  - reflexivity.
  - reflexivity.
  - apply elem_of_cons. by left.
Defined.

(** ** Change detection *)

Lemma changes_step_spec (tags : list (option string)) (changes : list VariantChange) (i : nat) :
  changes_step tags changes i =
  changes ++ (event_at tags <$> filter (changes_at tags) [i]).
Proof.
  unfold changes_step, strict_neq, tag_at. rewrite filter_cons, filter_nil.
  unfold changes_at at 1. destruct (decide (tags !! i ≠ tags !! (i - 1))) as [H|H].
  - by rewrite bool_decide_eq_true_2.
  - rewrite bool_decide_eq_false_2 by done. by rewrite app_nil_r.
Qed.

Lemma changes_loop (tags : list (option string)) (steps : list nat) (changes : list VariantChange) :
  foldl (changes_step tags) changes steps =
  changes ++ (event_at tags <$> filter (changes_at tags) steps).
Proof.
  revert changes. induction steps as [|i steps IH]; intros changes.
  - by rewrite app_nil_r.
  - cbn [foldl]. rewrite IH, changes_step_spec, <- app_assoc, <- fmap_app.
    by rewrite <- filter_app.
Qed.

(** The detector lists the events of the steps where the tag changes, from
    step 1 to the last one. *)
Lemma findVariantChanges_spec (tags : list (option string)) :
  findVariantChanges tags =
  event_at tags <$> filter (changes_at tags) (seq 1 (length tags - 1)).
Proof. unfold findVariantChanges, for_range. by rewrite changes_loop. Qed.

Lemma findVariantChanges_steps (tags : list (option string)) :
  step <$> findVariantChanges tags = filter (changes_at tags) (seq 1 (length tags - 1)).
Proof.
  rewrite findVariantChanges_spec, <- list_fmap_compose.
  induction (filter _ _) as [|i l IH]; [done|]. cbn. by rewrite IH.
Qed.

Lemma findVariantChanges_elem (tags : list (option string)) (ev : VariantChange) :
  ev ∈ findVariantChanges tags ↔
  1 ≤ step ev < length tags ∧ changes_at tags (step ev) ∧ ev = event_at tags (step ev).
Proof.
  rewrite findVariantChanges_spec, list_elem_of_fmap. split.
  - intros (i & -> & Hi). apply list_elem_of_filter in Hi as [Hc Hi].
    apply elem_of_seq in Hi. cbn. repeat split; try done; lia.
  - intros (Hi & Hc & Hev). exists (step ev). split; [done|].
    apply list_elem_of_filter. split; [done|]. apply elem_of_seq. lia.
Qed.

(** C3, as amended.  The detector never emits an event at step 0; for a
    sequence of length [N] every event has its step in [1, N), and there are
    at most [N - 1] events (none when [N] is 0 or 1). *)
Theorem findVariantChanges_bounds (tags : list (option string)) :
  (∀ ev, ev ∈ findVariantChanges tags → step ev ≠ 0) ∧
  (∀ ev, ev ∈ findVariantChanges tags → 1 ≤ step ev < length tags) ∧
  length (findVariantChanges tags) ≤ length tags - 1.
Proof.
  split; [|split].
  - intros ev Hev. apply findVariantChanges_elem in Hev. lia.
  - intros ev Hev. apply findVariantChanges_elem in Hev. lia.
  - rewrite findVariantChanges_spec, length_fmap.
    etrans; [apply length_filter|]. by rewrite length_seq.
Qed.

(** The amended C3 on a trace that changes its tag at the last step. *)
Lemma findVariantChanges_bounds_witness :
  let tags := [Some "A"; Some "B"] in
  let ev := {| step := 1; fromTag := "A"; toTag := "B" |} in
  ev ∈ findVariantChanges tags ∧ 1 ≤ step ev < length tags.
Proof.
  cbn zeta.
  assert (H : {| step := 1; fromTag := "A"; toTag := "B" |}
              ∈ findVariantChanges [Some "A"; Some "B"]).
  { apply elem_of_cons. by left. }
  split; [exact H|].
  exact (proj1 (proj2 (findVariantChanges_bounds [Some "A"; Some "B"])) _ H).
Defined.

(** C3 as stated fails: the sequence [A, B] has length 2 and yields an event
    at step 1, which is outside [1, N - 1) = [1, 1). *)
Lemma findVariantChanges_interval_counterexample :
  ¬ (∀ tags ev, ev ∈ findVariantChanges tags → 1 ≤ step ev < length tags - 1).
Proof.
  intros H.
  specialize (H [Some "A"; Some "B"] {| step := 1; fromTag := "A"; toTag := "B" |}).
  cbn in H. assert (1 ≤ 1 < 1) as [_ Hlt]; [|lia].
  apply H, elem_of_cons. by left.
Qed.

(** C4.  The steps of the emitted events are, in order, exactly the steps
    [i] with [1 <= i <= length - 1] whose tag differs from the tag at [i - 1];
    each event carries the two tags, [null] shown as [?]; [null] differs from
    every tag string; and [A, A, B, B, A] yields the events at steps 2 and 4. *)
Theorem findVariantChanges_exact :
  (∀ tags, step <$> findVariantChanges tags =
           filter (changes_at tags) (seq 1 (length tags - 1))) ∧
  (∀ tags i, (∃ ev, ev ∈ findVariantChanges tags ∧ step ev = i) ↔
             1 ≤ i ≤ length tags - 1 ∧ tags !! i ≠ tags !! (i - 1)) ∧
  (∀ tags ev, ev ∈ findVariantChanges tags → ev = event_at tags (step ev)) ∧
  (∀ s, changes_at [None; Some s] 1 ∧ changes_at [Some s; None] 1 ∧
        ¬ changes_at [None; None] 1) ∧
  findVariantChanges [Some "A"; Some "A"; Some "B"; Some "B"; Some "A"] =
    [ {| step := 2; fromTag := "A"; toTag := "B" |};
      {| step := 4; fromTag := "B"; toTag := "A" |} ].
Proof.
  split; [exact findVariantChanges_steps|]. split; [|split; [|split]].
  - intros tags i. split.
    + intros (ev & Hev & <-). apply findVariantChanges_elem in Hev as (Hi & Hc & _).
      split; [lia|exact Hc].
    + intros [Hi Hc]. exists (event_at tags i). split; [|done].
      apply findVariantChanges_elem. cbn. repeat split; try done; lia.
  - intros tags ev Hev. by apply findVariantChanges_elem in Hev as (_ & _ & ?).
  - intros s. unfold changes_at. cbn. repeat split; try done. intros H. by apply H.
  - reflexivity.
Qed.

(** C4 on a sequence that enters and leaves absence. *)
Lemma findVariantChanges_exact_witness :
  let tags := [Some "Idle"; None; None; Some "?"] in
  (∃ ev, ev ∈ findVariantChanges tags ∧ step ev = 3) ∧
  {| step := 1; fromTag := "Idle"; toTag := "?" |} =
    event_at tags (step {| step := 1; fromTag := "Idle"; toTag := "?" |}).
Proof.
  cbn zeta. split.
  - apply (proj1 (proj2 findVariantChanges_exact)). split; [cbn; lia|]. cbn. discriminate.
  - apply (proj1 (proj2 (proj2 findVariantChanges_exact))
             [Some "Idle"; None; None; Some "?"]).
    apply elem_of_cons. by left.
Defined.

(** ** Series *)

Section Series.

Implicit Types (states : list ItfState) (state : ItfState).
Implicit Types (varNames : list string) (v k : string).
Implicit Types (series : gmap string (list number)).

(** What the two loops of [buildSeries] do at each variable. *)
Local Abbreviation init_body := (fun series v => series_init series (stripPrefix v)).
Local Abbreviation push_body state :=
  (fun series v => series_push series (stripPrefix v) (sample state v)).
Local Abbreviation state_body varNames :=
  (fun series state => for_of (push_body state) varNames series).

Lemma row_cons k v varNames state :
  row k (v :: varNames) state =
  (if decide (stripPrefix v = k) then [sample state v] else []) ++ row k varNames state.
Proof. unfold row, colliding. rewrite filter_cons. by destruct (decide _). Qed.

(** The first loop: every short name holds the empty sequence. *)
Lemma init_loop varNames series k :
  foldl init_body series varNames !! k =
  if decide (k ∈ stripPrefix <$> varNames) then Some [] else series !! k.
Proof.
  revert series. induction varNames as [|v vs IH]; intros series.
  - cbn. destruct (decide _) as [H|H]; [by apply elem_of_nil in H|done].
  - cbn [foldl]. rewrite IH, fmap_cons. unfold series_init.
    destruct (decide (k ∈ stripPrefix <$> vs)) as [H|H].
    + rewrite decide_True; [done|]. apply elem_of_cons. by right.
    + destruct (decide (k = stripPrefix v)) as [->|Hne].
      * rewrite lookup_insert_eq, decide_True; [done|]. apply elem_of_cons. by left.
      * rewrite lookup_insert_ne by done. rewrite decide_False; [done|].
        intros [?|?]%elem_of_cons; done.
Qed.

(** The pass over the variables for one state never throws, and appends to
    each sequence the row of the state. *)
Lemma push_row state varNames series :
  (∀ v, v ∈ varNames → is_Some (series !! stripPrefix v)) →
  ∃ series', for_of (push_body state) varNames series = Some series' ∧
    ∀ k, series' !! k = (fun arr => arr ++ row k varNames state) <$> series !! k.
Proof.
  revert series. induction varNames as [|v vs IH]; intros series Hdef.
  - exists series. split; [done|]. intros k. unfold row, colliding.
    rewrite filter_nil, fmap_nil. destruct (series !! k); cbn; by rewrite ?app_nil_r.
  - destruct (Hdef v) as [arr Harr]; [apply elem_of_cons; by left|].
    cbn [for_of]. unfold series_push at 1. rewrite Harr.
    destruct (IH (<[stripPrefix v := arr ++ [sample state v]]> series))
      as (series' & Hrun & Hget).
    { intros w Hw. apply lookup_insert_is_Some'. right. apply Hdef, elem_of_cons. by right. }
    exists series'. split; [done|]. intros k. rewrite Hget, row_cons.
    destruct (decide (stripPrefix v = k)) as [<-|Hne].
    + rewrite lookup_insert_eq, Harr. cbn. by rewrite <- app_assoc.
    + by rewrite lookup_insert_ne.
Qed.

(** The second loop never throws, and appends to each sequence the rows of
    all the states. *)
Lemma push_rows states varNames series :
  (∀ v, v ∈ varNames → is_Some (series !! stripPrefix v)) →
  ∃ series', for_of (state_body varNames) states series = Some series' ∧
    ∀ k, series' !! k = (fun arr => arr ++ rows k varNames states) <$> series !! k.
Proof.
  revert series. induction states as [|state states IH]; intros series Hdef.
  - exists series. split; [done|]. intros k. unfold rows. cbn.
    destruct (series !! k); cbn; by rewrite ?app_nil_r.
  - destruct (push_row state varNames series Hdef) as (series1 & Hrun1 & Hget1).
    cbn [for_of]. rewrite Hrun1.
    destruct (IH series1) as (series' & Hrun & Hget).
    { intros v Hv. rewrite Hget1. apply fmap_is_Some, Hdef, Hv. }
    exists series'. split; [done|]. intros k. rewrite Hget, Hget1.
    unfold rows. cbn [fmap list_fmap concat].
    destruct (series !! k); cbn; by rewrite <- ?app_assoc.
Qed.

(** [buildSeries] never throws; the map it returns holds, under each short
    name of the input, the rows of the states, and nothing else. *)
Lemma buildSeries_spec states varNames :
  ∃ series, buildSeries states varNames = Some series ∧
    ∀ k, series !! k =
         if decide (k ∈ stripPrefix <$> varNames) then Some (rows k varNames states) else None.
Proof.
  unfold buildSeries.
  destruct (push_rows states varNames (foldl init_body ∅ varNames))
    as (series & Hrun & Hget).
  { intros v Hv. rewrite init_loop, decide_True; [done|]. by apply list_elem_of_fmap_2. }
  exists series. split; [done|]. intros k. rewrite Hget, init_loop.
  destruct (decide _); [done|]. by rewrite lookup_empty.
Qed.

Lemma length_row k varNames state :
  length (row k varNames state) = length (colliding k varNames).
Proof. unfold row. by rewrite length_fmap. Qed.

Lemma length_rows k varNames states :
  length (rows k varNames states) = length states * length (colliding k varNames).
Proof.
  unfold rows. induction states as [|state states IH]; [done|].
  cbn. by rewrite length_app, length_row, IH.
Qed.

(** A short name that only [v] has holds the series of [v]. *)
Lemma rows_alone k v varNames states :
  colliding k varNames = [v] → rows k varNames states = series_of states v.
Proof.
  intros H. unfold rows, series_of, row. rewrite H.
  induction states as [|state states IH]; [done|].
  rewrite !fmap_cons. cbn [concat]. by rewrite IH.
Qed.

(** Where the sample of the [j]-th colliding variable in the [i]-th state
    lands. *)
Lemma rows_lookup k varNames states i j state v :
  states !! i = Some state →
  colliding k varNames !! j = Some v →
  rows k varNames states !! (i * length (colliding k varNames) + j) = Some (sample state v).
Proof.
  intros Hi Hj. unfold rows. revert i Hi.
  induction states as [|s states IH]; intros i Hi; [done|].
  cbn [fmap list_fmap concat]. destruct i as [|i].
  - injection Hi as ->. rewrite lookup_app_l.
    + unfold row. rewrite Nat.mul_0_l, Nat.add_0_l. by rewrite list_lookup_fmap, Hj.
    + rewrite length_row. apply lookup_lt_Some in Hj. lia.
  - rewrite lookup_app_r; rewrite length_row; [|lia].
    replace (S i * _ + j - _) with (i * length (colliding k varNames) + j) by lia.
    by apply IH.
Qed.

(** Distinct short names: every variable is alone under its short name. *)
Lemma colliding_NoDup v varNames :
  NoDup (stripPrefix <$> varNames) → v ∈ varNames →
  colliding (stripPrefix v) varNames = [v].
Proof.
  unfold colliding. induction varNames as [|w ws IH]; intros Hnd Hv.
  - by apply elem_of_nil in Hv.
  - rewrite fmap_cons in Hnd. apply NoDup_cons in Hnd as [Hw Hnd].
    rewrite filter_cons. apply elem_of_cons in Hv as [->|Hv].
    + rewrite decide_True by done. f_equal.
      destruct (filter _ ws) as [|x l] eqn:E; [done|]. exfalso.
      assert (Hx : x ∈ filter (fun u => stripPrefix u = stripPrefix w) ws).
      { rewrite E. apply elem_of_cons. by left. }
      apply list_elem_of_filter in Hx as [Heq Hx].
      apply Hw. rewrite <- Heq. by apply list_elem_of_fmap_2.
    + rewrite decide_False; [by apply IH|].
      intros Heq. apply Hw. rewrite Heq. by apply list_elem_of_fmap_2.
Qed.

End Series.

(** C1, as amended.  For every variable passed to the Series Builder, the
    sequence under its short name has as many entries as there are states
    times the input names (repetitions counted) with that short name: the
    number of states when the variable is alone under its short name, and so
    for every variable when the short names of the input are pairwise
    distinct. *)
Theorem buildSeries_length
    (states : list ItfState) (varNames : list string) (v : string) :
  v ∈ varNames →
  ∃ series arr,
    buildSeries states varNames = Some series ∧
    series !! stripPrefix v = Some arr ∧
    length arr = length states * length (colliding (stripPrefix v) varNames) ∧
    (colliding (stripPrefix v) varNames = [v] → length arr = length states) ∧
    (NoDup (stripPrefix <$> varNames) → length arr = length states).
Proof.
  intros Hv. destruct (buildSeries_spec states varNames) as (series & Hrun & Hget).
  exists series, (rows (stripPrefix v) varNames states).
  assert (Hlen : ∀ w, colliding (stripPrefix v) varNames = [w] →
                      length (rows (stripPrefix v) varNames states) = length states).
  { intros w Hw. rewrite length_rows, Hw. cbn. lia. }
  split; [done|]. split; [|split; [apply length_rows|split]].
  - rewrite Hget, decide_True; [done|]. by apply list_elem_of_fmap_2.
  - apply Hlen.
  - intros Hnd. apply (Hlen v). by apply colliding_NoDup.
Qed.

(** The amended C1 on a two-state trace with two variables. *)
Lemma buildSeries_length_witness :
  let states : list ItfState := [ ∅; {[ "m::x" := JNumber 5 ]} ] in
  let varNames := ["m::x"; "m::y"] in
  ∃ series arr,
    buildSeries states varNames = Some series ∧
    series !! stripPrefix "m::x" = Some arr ∧
    length arr = length states * length (colliding (stripPrefix "m::x") varNames) ∧
    (colliding (stripPrefix "m::x") varNames = ["m::x"] → length arr = length states) ∧
    (NoDup (stripPrefix <$> varNames) → length arr = length states).
Proof. cbn zeta. apply buildSeries_length, elem_of_cons. by left. Defined.

(** C1 as stated fails: with one state and the variables [a::x] and [b::x],
    the sequence under [x] has two entries. *)
Lemma buildSeries_length_counterexample :
  ¬ (∀ (states : list ItfState) (varNames : list string) (v : string),
       v ∈ varNames →
       ∃ series arr,
         buildSeries states varNames = Some series ∧
         series !! stripPrefix v = Some arr ∧
         length arr = length states).
Proof.
  intros H.
  destruct (H [∅] ["a::x"; "b::x"] "a::x") as (series & arr & Hrun & Harr & Hlen).
  { apply elem_of_cons. by left. }
  vm_compute in Hrun. injection Hrun as <-.
  vm_compute in Harr. injection Harr as <-.
  discriminate Hlen.
Qed.

(** C2, as amended.  Names with the same short name share one sequence: the
    first loop leaves a single empty sequence under it, and the second
    appends to it, state after state, a sample for each of the colliding
    names in input order.  The sequence is the series of one variable only
    when that variable is alone under the short name. *)
Theorem buildSeries_collision
    (states : list ItfState) (varNames : list string) (k : string) :
  k ∈ stripPrefix <$> varNames →
  ∃ series arr,
    buildSeries states varNames = Some series ∧
    series !! k = Some arr ∧
    arr = rows k varNames states ∧
    length arr = length states * length (colliding k varNames) ∧
    (∀ i j state v,
       states !! i = Some state →
       colliding k varNames !! j = Some v →
       arr !! (i * length (colliding k varNames) + j) = Some (sample state v)) ∧
    (∀ v, colliding k varNames = [v] → arr = series_of states v).
Proof.
  intros Hk. destruct (buildSeries_spec states varNames) as (series & Hrun & Hget).
  exists series, (rows k varNames states). split; [done|].
  split; [by rewrite Hget, decide_True|]. split; [done|].
  split; [apply length_rows|]. split.
  - intros i j state v. apply rows_lookup.
  - intros v Hv. by apply rows_alone.
Qed.

(** The amended C2 on two colliding names over two states. *)
Lemma buildSeries_collision_witness :
  let states : list ItfState :=
    [ {[ "a::x" := JNumber 1; "b::x" := JNumber 2 ]};
      {[ "a::x" := JNumber 3; "b::x" := JNumber 4 ]} ] in
  ∃ series,
    buildSeries states ["a::x"; "b::x"] = Some series ∧
    series !! "x" = Some [1; 2; 3; 4]%float.
Proof.
  cbn zeta.
  destruct (buildSeries_collision
              [ {[ "a::x" := JNumber 1; "b::x" := JNumber 2 ]};
                {[ "a::x" := JNumber 3; "b::x" := JNumber 4 ]} ]
              ["a::x"; "b::x"] "x") as (series & arr & Hrun & Harr & Hrows & _).
  { apply elem_of_cons. by left. }
  exists series. split; [exact Hrun|]. subst arr. exact Harr.
Defined.

(** C2 as stated fails: with the state [{a::x: 1, b::x: 2}] the sequence
    under [x] is [1, 2], not the series [2] of the last colliding name. *)
Lemma buildSeries_last_write_counterexample :
  ¬ (∀ (states : list ItfState) (varNames : list string) (k v : string),
       1 < length (colliding k varNames) →
       last (colliding k varNames) = Some v →
       ∃ series,
         buildSeries states varNames = Some series ∧
         series !! k = Some (series_of states v)).
Proof.
  intros H.
  destruct (H [ {[ "a::x" := JNumber 1; "b::x" := JNumber 2 ]} ]
              ["a::x"; "b::x"] "x" "b::x") as (series & Hrun & Hget).
  { vm_compute. lia. }
  { reflexivity. }
  vm_compute in Hrun. injection Hrun as <-.
  vm_compute in Hget. discriminate Hget.
Qed.

Lemma sample_failed (state : ItfState) (v : string) :
  extractNumeric (state_get state v) = None → sample state v = 0%float.
Proof. unfold sample. by intros ->. Qed.

Lemma sample_absent (state : ItfState) (v : string) :
  state !! v = None → sample state v = 0%float.
Proof. intros H. apply sample_failed. by rewrite state_get_None. Qed.

Lemma series_of_absent (states : list ItfState) (v : string) :
  (∀ state, state ∈ states → state !! v = None) →
  series_of states v = replicate (length states) 0%float.
Proof.
  unfold series_of. induction states as [|state states IH]; intros Habs; [done|].
  rewrite fmap_cons. cbn [length replicate]. f_equal.
  - apply sample_absent, Habs, elem_of_cons. by left.
  - apply IH. intros s Hs. apply Habs, elem_of_cons. by right.
Qed.

(** C5.  The Series Builder never raises an error; where numeric extraction
    fails for a variable in a state, and so where the variable is absent
    from the state, the sample appended for it is 0; and the states
    [[{}, {"x": 5}]] with the variable [x] give the series [[0, 5]]. *)
Theorem buildSeries_default_zero :
  (∀ (states : list ItfState) (varNames : list string),
     is_Some (buildSeries states varNames)) ∧
  (∀ (state : ItfState) (v : string),
     extractNumeric (state_get state v) = None ∨ state !! v = None →
     sample state v = 0%float) ∧
  (∀ (states : list ItfState) (varNames : list string) (v : string) i j state,
     states !! i = Some state →
     colliding (stripPrefix v) varNames !! j = Some v →
     extractNumeric (state_get state v) = None ∨ state !! v = None →
     ∃ series arr,
       buildSeries states varNames = Some series ∧
       series !! stripPrefix v = Some arr ∧
       arr !! (i * length (colliding (stripPrefix v) varNames) + j) = Some 0%float) ∧
  buildSeries [ ∅; {[ "x" := JNumber 5 ]} ] ["x"] = Some {[ "x" := [0; 5]%float ]}.
Proof.
  assert (Hzero : ∀ (state : ItfState) (v : string),
            extractNumeric (state_get state v) = None ∨ state !! v = None →
            sample state v = 0%float).
  { intros state v [H|H]; [by apply sample_failed|by apply sample_absent]. }
  split; [|split; [exact Hzero|split]].
  - intros states varNames.
    destruct (buildSeries_spec states varNames) as (series & -> & _). by eexists.
  - intros states varNames v i j state Hi Hj Hfail.
    assert (Hv : v ∈ varNames).
    { apply list_elem_of_lookup_2 in Hj. by apply list_elem_of_filter in Hj as [_ ?]. }
    destruct (buildSeries_spec states varNames) as (series & Hrun & Hget).
    exists series, (rows (stripPrefix v) varNames states). split; [done|]. split.
    + rewrite Hget, decide_True; [done|]. by apply list_elem_of_fmap_2.
    + rewrite <- (Hzero state v Hfail). by apply rows_lookup.
  - vm_compute. reflexivity.
Qed.

(** C5 on the trace [[{}, {x: "five"}]]: the variable is absent from the
    first state and is no number in the second. *)
Lemma buildSeries_default_zero_witness :
  let states : list ItfState := [ ∅; {[ "x" := JString "five" ]} ] in
  sample ∅ "x" = 0%float ∧
  ∃ series arr,
    buildSeries states ["x"] = Some series ∧
    series !! stripPrefix "x" = Some arr ∧
    arr !! (1 * length (colliding (stripPrefix "x") ["x"]) + 0) = Some 0%float.
Proof.
  cbn zeta. split.
  - apply (proj1 (proj2 buildSeries_default_zero)). by right.
  - apply (proj1 (proj2 (proj2 buildSeries_default_zero))
             [ ∅; {[ "x" := JString "five" ]} ] ["x"] "x" 1 0 {[ "x" := JString "five" ]}).
    + reflexivity.
    + reflexivity.
    + left. reflexivity.
Defined.

(** C10, as amended.  When no input variable has the short name
    [__proto__], the keys of the returned map are exactly the short names of
    the input variables; a variable absent from every state has its
    sequence all the same, which is one zero per state when no other input
    name has its short name; an empty variable list gives the empty map. *)
Theorem buildSeries_keys (states : list ItfState) (varNames : list string) :
  ∃ series,
    buildSeries states varNames = Some series ∧
    ("__proto__" ∉ stripPrefix <$> varNames →
     own_keys series = list_to_set (stripPrefix <$> varNames)) ∧
    (∀ v, v ∈ varNames →
          (∀ state, state ∈ states → state !! v = None) →
          is_Some (series !! stripPrefix v) ∧
          (colliding (stripPrefix v) varNames = [v] →
           series !! stripPrefix v = Some (replicate (length states) 0%float))) ∧
    (varNames = [] → series = ∅).
Proof.
  destruct (buildSeries_spec states varNames) as (series & Hrun & Hget).
  exists series. split; [done|]. split; [|split].
  - intros Hproto. unfold own_keys. apply set_eq. intros k.
    rewrite elem_of_difference, elem_of_dom, Hget, elem_of_list_to_set, elem_of_singleton.
    destruct (decide _) as [H|H]; split; try done.
    + intros _. split; [done|]. by intros ->.
    + by intros [[? ?] _].
  - intros v Hv Habs.
    rewrite Hget, decide_True by (by apply list_elem_of_fmap_2). split; [done|].
    intros Halone. f_equal. rewrite (rows_alone _ v) by done. by apply series_of_absent.
  - intros ->. apply map_eq. intros k. rewrite Hget, lookup_empty.
    destruct (decide _) as [H|H]; [by apply elem_of_nil in H|done].
Qed.

(** The amended C10 on a variable that no state holds. *)
Lemma buildSeries_keys_witness :
  let states : list ItfState := [ {[ "m::y" := JNumber 1 ]}; {[ "m::y" := JNumber 2 ]} ] in
  let varNames := ["m::x"; "m::y"] in
  ∃ series,
    buildSeries states varNames = Some series ∧
    own_keys series = list_to_set (stripPrefix <$> varNames) ∧
    series !! "x" = Some [0; 0]%float.
Proof.
  cbn zeta.
  destruct (buildSeries_keys
              [ {[ "m::y" := JNumber 1 ]}; {[ "m::y" := JNumber 2 ]} ] ["m::x"; "m::y"])
    as (series & Hrun & Hkeys & Habs & _).
  exists series. split; [exact Hrun|]. split.
  - apply Hkeys. intros Hin.
    repeat (apply elem_of_cons in Hin as [Hin|Hin]; [discriminate Hin|]).
    by apply elem_of_nil in Hin.
  - apply (Habs "m::x").
    + apply elem_of_cons. by left.
    + intros state Hs.
      repeat (apply elem_of_cons in Hs as [->|Hs]; [reflexivity|]).
      by apply elem_of_nil in Hs.
    + reflexivity.
Defined.

(** C10 as stated fails twice.  With the single variable [__proto__] the
    returned object has no key at all: the assignment set its prototype.  And
    in the trace [[{b::x: 5}]] the variable [a::x] is absent from every
    state, yet with [a::x] and [b::x] as input the entry under [x] is
    [[0, 5]], which is not all zero. *)
Lemma buildSeries_keys_counterexample :
  ¬ (∀ (states : list ItfState) (varNames : list string),
       ∃ series,
         buildSeries states varNames = Some series ∧
         own_keys series = list_to_set (stripPrefix <$> varNames)) ∧
  ¬ (∀ (states : list ItfState) (varNames : list string) (v : string),
       v ∈ varNames →
       (∀ state, state ∈ states → state !! v = None) →
       ∃ series arr,
         buildSeries states varNames = Some series ∧
         series !! stripPrefix v = Some arr ∧
         ∀ x, x ∈ arr → x = 0%float).
Proof.
  split.
  - intros H. destruct (H [∅] ["__proto__"]) as (series & Hrun & Hkeys).
    assert (Hin : "__proto__" ∈ own_keys series).
    { rewrite Hkeys. apply elem_of_list_to_set, elem_of_cons. by left. }
    unfold own_keys in Hin. apply elem_of_difference in Hin as [_ Hin].
    apply Hin. by apply elem_of_singleton.
  - intros H.
    destruct (H [ {[ "b::x" := JNumber 5 ]} ] ["a::x"; "b::x"] "a::x")
      as (series & arr & Hrun & Harr & Hzero).
    { apply elem_of_cons. by left. }
    { intros state Hs. apply elem_of_cons in Hs as [->|Hs]; [reflexivity|].
      by apply elem_of_nil in Hs. }
    vm_compute in Hrun. injection Hrun as <-.
    vm_compute in Harr. injection Harr as <-.
    assert (Hfive : 5%float = 0%float).
    { apply Hzero. apply elem_of_cons. right. apply elem_of_cons. by left. }
    assert (Heqb : PrimFloat.eqb 5 0 = true) by (rewrite Hfive; reflexivity).
    vm_compute in Heqb. discriminate Heqb.
Qed.

(** * Further properties of the code *)

(** ** What the extractors accept *)

Lemma extractNumeric_shape (cell : JsValue) (x : number) :
  extractNumeric cell = Some x ↔
  cell = JNumber x ∨
  ∃ props s, cell = JObject props ∧ props !! "#bigint" = Some (JString s) ∧ x = Number s.
Proof.
  split.
  - destruct cell as [| |b|n|s|elems|props]; try discriminate.
    + intros [= ->]. by left.
    + unfold extractNumeric, has, get. cbn [typeof not_null].
      destruct (props !! "#bigint") as [[| |b|n|s|elems|props']|] eqn:E;
        cbn; try discriminate.
      intros [= <-]. right. by exists props, s.
  - intros [->|(props & s & -> & Hp & ->)]; [done|]. by apply extractNumeric_bigint.
Qed.

(** The numeric extractor succeeds on plain numbers and on objects whose
    ["#bigint"] is a string, and on nothing else: [null], [undefined],
    booleans, strings, arrays and other objects all give [null]. *)
Theorem extractNumeric_iff (cell : JsValue) (x : number) :
  extractNumeric cell = Some x ↔
  cell = JNumber x ∨
  ∃ props s, cell = JObject props ∧ props !! "#bigint" = Some (JString s) ∧ x = Number s.
Proof. apply extractNumeric_shape. Qed.

Lemma extractVariantTag_shape (cell : JsValue) (t : string) :
  extractVariantTag cell = Some t ↔
  ∃ props, cell = JObject props ∧ props !! "tag" = Some (JString t).
Proof.
  split.
  - destruct cell as [| |b|n|s|elems|props]; try discriminate.
    unfold extractVariantTag, has, get. cbn [typeof not_null].
    destruct (props !! "tag") as [[| |b|n|s|elems|props']|] eqn:E;
      cbn; try discriminate.
    intros [= <-]. by exists props.
  - intros (props & -> & Hp). unfold extractVariantTag, has, get. rewrite Hp.
    rewrite bool_decide_eq_true_2 by eauto. reflexivity.
Qed.

(** The tag extractor succeeds exactly on objects whose ["tag"] is a string. *)
Theorem extractVariantTag_iff (cell : JsValue) (t : string) :
  extractVariantTag cell = Some t ↔
  ∃ props, cell = JObject props ∧ props !! "tag" = Some (JString t).
Proof. apply extractVariantTag_shape. Qed.

(** ** What the classifier does with each declared name *)

(** A name is in the numeric group exactly when it is declared and its cell
    in the given state is a number or a big-integer wrapper. *)
Theorem classifyVars_numeric_iff (state : ItfState) (varNames : list string) (v : string) :
  v ∈ numeric (classifyVars state varNames) ↔
  v ∈ varNames ∧
  ((∃ x, state !! v = Some (JNumber x)) ∨
   (∃ props s, state !! v = Some (JObject props) ∧ props !! "#bigint" = Some (JString s))).
Proof.
  rewrite classifyVars_numeric, list_elem_of_filter. unfold is_numeric.
  split.
  - intros [Hn Hv]. split; [done|].
    destruct (extractNumeric (state_get state v)) as [x|] eqn:E; [|done].
    unfold state_get in E.
    apply extractNumeric_shape in E as [E|(props & s & E & Hp & _)];
      destruct (state !! v) as [cell|]; cbn in E; try discriminate; subst cell.
    + left. by exists x.
    + right. by exists props, s.
  - intros [Hv [[x Hx]|(props & s & Hs & Hp)]]; (split; [|done]).
    + by rewrite (state_get_Some _ _ _ Hx).
    + by rewrite (state_get_Some _ _ _ Hs), (extractNumeric_bigint props s Hp).
Qed.

(** A name is in the variant group exactly when it is declared and its cell
    is an object with a string ["tag"] and without a string ["#bigint"]: the
    numeric test comes first, so a cell that carries both is numeric. *)
Theorem classifyVars_variant_iff (state : ItfState) (varNames : list string) (v : string) :
  v ∈ variant (classifyVars state varNames) ↔
  v ∈ varNames ∧
  ∃ props t, state !! v = Some (JObject props) ∧ props !! "tag" = Some (JString t) ∧
             ∀ s, props !! "#bigint" ≠ Some (JString s).
Proof.
  rewrite classifyVars_variant, list_elem_of_filter. unfold is_variant, is_numeric.
  split.
  - intros [Hn Hv]. split; [done|].
    destruct (extractNumeric (state_get state v)) as [x|] eqn:En; [done|].
    destruct (extractVariantTag (state_get state v)) as [t|] eqn:Et; [|done].
    unfold state_get in En, Et.
    apply extractVariantTag_shape in Et as (props & E & Hp).
    destruct (state !! v) as [cell|]; cbn in E; try discriminate; subst cell.
    exists props, t. split; [done|]. split; [done|]. intros s Hs.
    cbn [default from_option id] in En.
    by rewrite (extractNumeric_bigint props s Hs) in En.
  - intros [Hv (props & t & Hs & Hp & Hno)]. split; [|done].
    rewrite (state_get_Some _ _ _ Hs).
    destruct (extractNumeric (JObject props)) as [x|] eqn:En.
    + apply extractNumeric_shape in En as [En|(props' & s & [= <-] & Hb & _)]; [done|].
      by destruct (Hno s).
    + assert (Ht : extractVariantTag (JObject props) = Some t).
      { apply extractVariantTag_shape. by exists props. }
      by rewrite Ht.
Qed.


(** ** Variable lookup: [findVariantVar] *)

Lemma findVariantVar_head (varNames : list string) (k : string) :
  findVariantVar varNames k = head (colliding k varNames).
Proof.
  unfold findVariantVar, colliding. induction varNames as [|w ws IH]; [done|].
  cbn [find]. rewrite filter_cons.
  destruct (String.eqb_spec (stripPrefix w) k) as [Heq|Hne].
  - by rewrite decide_True.
  - by rewrite decide_False.
Qed.

Lemma findVariantVar_first_match (varNames : list string) (k : string) :
  (∀ v, findVariantVar varNames k = Some v ↔
        ∃ pre post, varNames = pre ++ v :: post ∧ stripPrefix v = k ∧
                    ∀ w, w ∈ pre → stripPrefix w ≠ k) ∧
  (findVariantVar varNames k = None ↔ k ∉ stripPrefix <$> varNames).
Proof.
  rewrite findVariantVar_head. unfold colliding. split.
  - intros v. induction varNames as [|w ws IH].
    + split; [done|]. intros (pre & post & H & _). by destruct pre.
    + rewrite filter_cons. destruct (decide (stripPrefix w = k)) as [Heq|Hne].
      * split.
        -- intros [= ->]. exists [], ws. split; [done|]. split; [done|].
           intros x Hx. by apply elem_of_nil in Hx.
        -- intros (pre & post & H & Hv & Hpre). destruct pre as [|p pre].
           ++ by injection H as -> _.
           ++ injection H as -> _. destruct (Hpre p); [|done]. apply elem_of_cons. by left.
      * rewrite IH. split.
        -- intros (pre & post & -> & Hv & Hpre). exists (w :: pre), post.
           split; [done|]. split; [done|].
           intros x [->|Hx]%elem_of_cons; [done|by apply Hpre].
        -- intros (pre & post & H & Hv & Hpre). destruct pre as [|p pre].
           ++ injection H as -> _. done.
           ++ injection H as -> ->. exists pre, post. split; [done|]. split; [done|].
              intros x Hx. apply Hpre, elem_of_cons. by right.
  - rewrite list_elem_of_fmap. split.
    + intros Hnone (v & -> & Hv).
      assert (Hin : v ∈ filter (fun u => stripPrefix u = stripPrefix v) varNames).
      { by apply list_elem_of_filter. }
      destruct (filter _ varNames); [by apply elem_of_nil in Hin|done].
    + intros Hno. destruct (filter _ varNames) as [|x l] eqn:E; [done|]. exfalso.
      assert (Hin : x ∈ filter (fun u => stripPrefix u = k) varNames).
      { rewrite E. apply elem_of_cons. by left. }
      apply list_elem_of_filter in Hin as [Hx Hin]. apply Hno. by exists x.
Qed.

(** The lookup returns the first declared name with the given short name:
    no name before it has that short name.  It finds nothing exactly when
    no declared name has the short name. *)
Theorem findVariantVar_first (varNames : list string) (k : string) :
  (∀ v, findVariantVar varNames k = Some v ↔
        ∃ pre post, varNames = pre ++ v :: post ∧ stripPrefix v = k ∧
                    ∀ w, w ∈ pre → stripPrefix w ≠ k) ∧
  (findVariantVar varNames k = None ↔ k ∉ stripPrefix <$> varNames).
Proof. apply findVariantVar_first_match. Qed.

(** Looking up the short name of a declared name finds a declared name with
    the same short name, and finds that very name when no other declared
    name shares its short name. *)
Theorem findVariantVar_stripPrefix (varNames : list string) (v : string) :
  v ∈ varNames →
  ∃ w, findVariantVar varNames (stripPrefix v) = Some w ∧
       w ∈ varNames ∧
       stripPrefix w = stripPrefix v ∧
       (colliding (stripPrefix v) varNames = [v] → w = v).
Proof.
  intros Hv. rewrite findVariantVar_head.
  assert (Hin : v ∈ colliding (stripPrefix v) varNames) by by apply list_elem_of_filter.
  destruct (colliding (stripPrefix v) varNames) as [|w l] eqn:E;
    [by apply elem_of_nil in Hin|].
  assert (Hw : w ∈ colliding (stripPrefix v) varNames).
  { rewrite E. apply elem_of_cons. by left. }
  apply list_elem_of_filter in Hw as [Hw1 Hw2].
  exists w. split; [done|]. split; [done|]. split; [done|]. by intros [= -> _].
Qed.

Lemma findVariantVar_stripPrefix_witness :
  ∃ w, findVariantVar ["mod::x"; "mod::y"] (stripPrefix "mod::y") = Some w ∧
       w ∈ ["mod::x"; "mod::y"] ∧
       stripPrefix w = stripPrefix "mod::y" ∧
       (colliding (stripPrefix "mod::y") ["mod::x"; "mod::y"] = ["mod::y"] → w = "mod::y").
Proof.
  apply findVariantVar_stripPrefix. apply elem_of_cons. right. apply elem_of_cons. by left.
Defined.

(** ** The change detector as a walk *)

Lemma tag_or_Some (t : option string) : tag_or (Some t) "?" = default "?" t.
Proof. by destruct t. Qed.

Lemma changes_walk (l : list (option string)) (pre : list (option string)) (prev : option string) :
  event_at (pre ++ prev :: l) <$>
    filter (changes_at (pre ++ prev :: l)) (seq (S (length pre)) (length l)) =
  changes_from prev (S (length pre)) l.
Proof.
  revert pre prev. induction l as [|t l IH]; intros pre prev; [done|].
  cbn [length seq changes_from].
  assert (Hi : (pre ++ prev :: t :: l) !! S (length pre) = Some t).
  { rewrite lookup_app_r by lia. by replace (S (length pre) - length pre) with 1 by lia. }
  assert (Hp : (pre ++ prev :: t :: l) !! length pre = Some prev).
  { rewrite lookup_app_r by lia. by rewrite Nat.sub_diag. }
  specialize (IH (pre ++ [prev]) t).
  rewrite <- app_assoc, length_app in IH. cbn [app length] in IH.
  replace (length pre + 1) with (S (length pre)) in IH by lia.
  assert (Hev : event_at (pre ++ prev :: t :: l) (S (length pre)) =
                {| step := S (length pre);
                   fromTag := default "?" prev; toTag := default "?" t |}).
  { unfold event_at, tag_at. replace (S (length pre) - 1) with (length pre) by lia.
    by rewrite Hi, Hp, !tag_or_Some. }
  assert (Hiff : changes_at (pre ++ prev :: t :: l) (S (length pre)) ↔ t ≠ prev).
  { unfold changes_at. replace (S (length pre) - 1) with (length pre) by lia.
    rewrite Hi, Hp. split; congruence. }
  destruct (decide (t ≠ prev)) as [Hne|He].
  - rewrite filter_cons_True by by apply Hiff. by rewrite fmap_cons, Hev, IH.
  - rewrite filter_cons_False by by rewrite Hiff. by rewrite IH.
Qed.

(** The detector is the walk that starts after the first tag. *)
Lemma findVariantChanges_walk (t : option string) (l : list (option string)) :
  findVariantChanges (t :: l) = changes_from t 1 l.
Proof.
  rewrite findVariantChanges_spec. cbn [length].
  replace (S (length l) - 1) with (length l) by lia.
  apply (changes_walk l [] t).
Qed.

Lemma last_cons_default {A} (x y : A) (l : list A) :
  default x (last (y :: l)) = default y (last l).
Proof.
  destruct l as [|z l]; [done|]. rewrite last_cons_cons.
  destruct (last (z :: l)) eqn:E; [done|]. by apply last_None in E.
Qed.

Lemma changes_from_app (l m : list (option string)) (prev : option string) (i : nat) :
  changes_from prev i (l ++ m) =
  changes_from prev i l ++ changes_from (default prev (last l)) (i + length l) m.
Proof.
  revert prev i. induction l as [|t l IH]; intros prev i.
  - cbn. by rewrite Nat.add_0_r.
  - cbn [app changes_from length]. rewrite IH, <- app_assoc, last_cons_default.
    by replace (S i + length l) with (i + S (length l)) by lia.
Qed.

Lemma changes_from_nil_iff (l : list (option string)) (prev : option string) (i : nat) :
  changes_from prev i l = [] ↔ ∀ t, t ∈ l → t = prev.
Proof.
  revert prev i. induction l as [|t l IH]; intros prev i.
  - split; [|done]. intros _ t Ht. by apply elem_of_nil in Ht.
  - cbn [changes_from]. destruct (decide (t ≠ prev)) as [Hne|He].
    + split; [done|]. intros H. destruct Hne. apply H, elem_of_cons. by left.
    + apply dec_stable in He. subst t. cbn [app]. rewrite IH. split.
      * intros H t [->|Ht]%elem_of_cons; [done|by apply H].
      * intros H t Ht. apply H, elem_of_cons. by right.
Qed.

Lemma changes_from_step_ge (l : list (option string)) (prev : option string) (i : nat) ev :
  ev ∈ changes_from prev i l → i ≤ step ev.
Proof.
  revert prev i. induction l as [|t l IH]; intros prev i; [by intros ?%elem_of_nil|].
  cbn [changes_from]. intros [H|H]%elem_of_app.
  - destruct (decide _); [|by apply elem_of_nil in H].
    apply list_elem_of_singleton in H. by subst ev.
  - apply IH in H. lia.
Qed.

Lemma changes_from_head (l : list (option string)) (prev : option string) (i : nat) ev :
  head (changes_from prev i l) = Some ev → fromTag ev = default "?" prev.
Proof.
  revert prev i. induction l as [|t l IH]; intros prev i; [done|].
  cbn [changes_from]. destruct (decide (t ≠ prev)) as [Hne|He].
  - by intros [= <-].
  - apply dec_stable in He. subst t. apply IH.
Qed.

Lemma changes_from_last (l : list (option string)) (prev : option string) (i : nat) ev :
  last (changes_from prev i l) = Some ev → toTag ev = default "?" (default prev (last l)).
Proof.
  revert prev i. induction l as [|t l IH]; intros prev i; [done|].
  cbn [changes_from].
  rewrite last_cons_default. destruct (changes_from t (S i) l) as [|e es] eqn:E.
  - pose proof (proj1 (changes_from_nil_iff l t (S i)) E) as Hall.
    rewrite app_nil_r. destruct (decide (t ≠ prev)) as [Hne|He]; [|done].
    intros [= <-]. cbn [toTag].
    destruct (last l) as [x|] eqn:El; [|done]. cbn.
    rewrite (Hall x); [done|]. by apply last_Some_elem_of.
  - intros H. apply (IH t (S i)). rewrite E.
    destruct (decide (t ≠ prev)); cbn [app] in H; [by rewrite last_cons_cons in H|done].
Qed.

Lemma changes_from_chain (l : list (option string)) (prev : option string) (i k : nat) e1 e2 :
  changes_from prev i l !! k = Some e1 →
  changes_from prev i l !! S k = Some e2 →
  toTag e1 = fromTag e2 ∧ step e1 < step e2.
Proof.
  revert prev i k. induction l as [|t l IH]; intros prev i k; [done|].
  cbn [changes_from]. destruct (decide (t ≠ prev)) as [Hne|He]; cbn [app].
  - destruct k as [|k].
    + intros [= <-] H2. cbn in H2. cbn [toTag step]. split.
      * symmetry. apply (changes_from_head l t (S i)). by rewrite head_lookup.
      * apply list_elem_of_lookup_2, changes_from_step_ge in H2. lia.
    + cbn. apply IH.
  - apply IH.
Qed.

Lemma findVariantChanges_constant (tags : list (option string)) :
  findVariantChanges tags = [] ↔ ∀ a b, a ∈ tags → b ∈ tags → a = b.
Proof.
  destruct tags as [|t l].
  - split; [|done]. intros _ a b Ha. by apply elem_of_nil in Ha.
  - rewrite findVariantChanges_walk, changes_from_nil_iff. split.
    + intros H a b [->|Ha]%elem_of_cons [->|Hb]%elem_of_cons; try done.
      * symmetry. by apply H.
      * by apply H.
      * by rewrite (H a), (H b).
    + intros H x Hx. apply H; apply elem_of_cons; [by right|by left].
Qed.

(** The detector reports nothing exactly when all the tags of the sequence
    are the same (all the same string, or all [null]). *)
Theorem findVariantChanges_nil_iff (tags : list (option string)) :
  findVariantChanges tags = [] ↔ ∀ a b, a ∈ tags → b ∈ tags → a = b.
Proof. apply findVariantChanges_constant. Qed.

(** The events chain: each event starts from the tag the event before it
    ended with, the first starts from the first tag of the sequence and
    the last ends with its last tag. *)
Theorem findVariantChanges_chain (tags : list (option string)) :
  (∀ k e1 e2, findVariantChanges tags !! k = Some e1 →
              findVariantChanges tags !! S k = Some e2 →
              toTag e1 = fromTag e2) ∧
  (∀ e t, head (findVariantChanges tags) = Some e → head tags = Some t →
          fromTag e = default "?" t) ∧
  (∀ e t, last (findVariantChanges tags) = Some e → last tags = Some t →
          toTag e = default "?" t).
Proof.
  destruct tags as [|t0 l]; [done|]. rewrite findVariantChanges_walk.
  split; [|split].
  - intros k e1 e2 H1 H2. by destruct (changes_from_chain l t0 1 k e1 e2 H1 H2).
  - intros e t He [= <-]. by apply (changes_from_head l t0 1).
  - intros e t He Ht. rewrite (changes_from_last l t0 1 e He).
    assert (Hd : last (t0 :: l) = Some (default t0 (last l))).
    { destruct l as [|x l]; [done|]. rewrite last_cons_cons.
      destruct (last (x :: l)) eqn:E; [done|]. by apply last_None in E. }
    rewrite Hd in Ht. by injection Ht as <-.
Qed.

Lemma findVariantChanges_chain_witness :
  toTag {| step := 3; fromTag := "?"; toTag := "Idle" |} = default "?" (Some "Idle").
Proof.
  apply (proj2 (proj2 (findVariantChanges_chain
                         [Some "Idle"; Some "Run"; None; Some "Idle"]))); reflexivity.
Defined.

(** The events come in strictly increasing order of their steps, so no step
    is reported twice. *)
Theorem findVariantChanges_increasing (tags : list (option string)) (j k : nat) e1 e2 :
  j < k →
  findVariantChanges tags !! j = Some e1 →
  findVariantChanges tags !! k = Some e2 →
  step e1 < step e2.
Proof.
  intros Hjk H1 H2. destruct tags as [|t0 l]; [done|].
  rewrite findVariantChanges_walk in H1, H2.
  revert e2 H2. induction k as [|k IH]; intros e2 H2; [lia|].
  destruct (lookup_lt_is_Some_2 (changes_from t0 1 l) k) as [e Hk].
  { apply lookup_lt_Some in H2. lia. }
  destruct (changes_from_chain l t0 1 k e e2 Hk H2) as [_ Hlt].
  destruct (decide (j = k)) as [->|Hne].
  - rewrite H1 in Hk. by injection Hk as ->.
  - etrans; [apply (IH ltac:(lia) e Hk)|done].
Qed.

Lemma findVariantChanges_increasing_witness :
  step {| step := 2; fromTag := "A"; toTag := "B" |}
  < step {| step := 4; fromTag := "B"; toTag := "A" |}.
Proof.
  apply (findVariantChanges_increasing
           [Some "A"; Some "A"; Some "B"; Some "B"; Some "A"] 0 1).
  - lia.
  - reflexivity.
  - reflexivity.
Defined.

(** An event shows the same text on both sides only when that text is the
    placeholder [?]: one of the two tags is [null] and the other is the
    string ["?"]. *)
Theorem findVariantChanges_same_text (tags : list (option string)) (ev : VariantChange) :
  ev ∈ findVariantChanges tags →
  fromTag ev = toTag ev →
  fromTag ev = "?" ∧
  (tags !! (step ev - 1) = Some None ∧ tags !! step ev = Some (Some "?") ∨
   tags !! (step ev - 1) = Some (Some "?") ∧ tags !! step ev = Some None).
Proof.
  intros Hev Heq. apply findVariantChanges_elem in Hev as (Hi & Hc & Hev).
  destruct ev as [i f t]. cbn [step fromTag toTag] in *.
  unfold event_at, changes_at, tag_at in *.
  destruct (lookup_lt_is_Some_2 tags i) as [b Hb]; [lia|].
  destruct (lookup_lt_is_Some_2 tags (i - 1)) as [a Ha]; [lia|].
  rewrite Ha, Hb in *. rewrite !tag_or_Some in Hev. injection Hev as -> ->.
  destruct a as [a|], b as [b|]; cbn in *; subst; try congruence.
  - split; [done|]. by right.
  - split; [done|]. by left.
Qed.

Lemma findVariantChanges_same_text_witness :
  let ev := {| step := 1; fromTag := "?"; toTag := "?" |} in
  let tags := [None; Some "?"] in
  fromTag ev = "?" ∧
  (tags !! (step ev - 1) = Some None ∧ tags !! step ev = Some (Some "?") ∨
   tags !! (step ev - 1) = Some (Some "?") ∧ tags !! step ev = Some None).
Proof.
  cbn zeta. apply findVariantChanges_same_text.
  - apply elem_of_cons. by left.
  - reflexivity.
Defined.

(** Extending the sequence keeps the events found so far: one more tag
    adds an event at the new last step when it differs from the tag before
    and adds nothing otherwise, and the events of a sequence are a prefix
    of the events of any longer one. *)
Theorem findVariantChanges_snoc (tags : list (option string)) :
  (∀ p t, last tags = Some p →
     findVariantChanges (tags ++ [t]) =
     findVariantChanges tags ++
     (if decide (t ≠ p)
      then [ {| step := length tags; fromTag := default "?" p; toTag := default "?" t |} ]
      else [])) ∧
  (∀ more, findVariantChanges tags `prefix_of` findVariantChanges (tags ++ more)).
Proof.
  destruct tags as [|t0 l].
  - split; [done|]. intros more. apply prefix_nil.
  - split.
    + intros p t Hp. rewrite <- app_comm_cons, !findVariantChanges_walk, changes_from_app.
      assert (Hd : last (t0 :: l) = Some (default t0 (last l))).
      { destruct l as [|x l]; [done|]. rewrite last_cons_cons.
        destruct (last (x :: l)) eqn:E; [done|]. by apply last_None in E. }
      rewrite Hd in Hp. injection Hp as ->. cbn [changes_from length].
      by rewrite app_nil_r.
    + intros more. rewrite <- app_comm_cons, !findVariantChanges_walk, changes_from_app.
      by apply prefix_app_r.
Qed.

Lemma findVariantChanges_snoc_witness :
  findVariantChanges ([Some "A"; Some "A"] ++ [Some "B"]) =
  findVariantChanges [Some "A"; Some "A"] ++
  (if decide (Some "B" ≠ Some "A")
   then [ {| step := length [Some "A"; Some "A"];
             fromTag := default "?" (Some "A"); toTag := default "?" (Some "B") |} ]
   else []).
Proof. by apply (proj1 (findVariantChanges_snoc [Some "A"; Some "A"])). Defined.

(** ** More on the Series Builder *)

Lemma rows_app (k : string) (varNames : list string) (states more : list ItfState) :
  rows k varNames (states ++ more) = rows k varNames states ++ rows k varNames more.
Proof. unfold rows. by rewrite fmap_app, concat_app. Qed.

(** A longer trace extends every series: the map for [states ++ more] has
    the keys of the map for [states], and each sequence is the old one
    followed by what the new states contribute. *)
Theorem buildSeries_extend (states more : list ItfState) (varNames : list string) :
  ∃ series series',
    buildSeries states varNames = Some series ∧
    buildSeries (states ++ more) varNames = Some series' ∧
    ∀ k, series' !! k = (fun arr => arr ++ rows k varNames more) <$> series !! k.
Proof.
  destruct (buildSeries_spec states varNames) as (series & Hrun & Hget).
  destruct (buildSeries_spec (states ++ more) varNames) as (series' & Hrun' & Hget').
  exists series, series'. split; [done|]. split; [done|]. intros k.
  rewrite Hget, Hget'. destruct (decide _); [|done]. cbn. by rewrite rows_app.
Qed.

(** The builder reads nothing but the cells of the variables it is given:
    two traces that agree on them, state by state, give the same map. *)
Theorem buildSeries_reads_inputs (states states' : list ItfState) (varNames : list string) :
  Forall2 (fun s s' => ∀ v, v ∈ varNames → s !! v = s' !! v) states states' →
  buildSeries states varNames = buildSeries states' varNames.
Proof.
  intros Hagree.
  assert (Hrows : ∀ k, rows k varNames states = rows k varNames states').
  { intros k. unfold rows.
    induction Hagree as [|s s' l l' Hs _ IH]; [done|].
    rewrite !fmap_cons. cbn [concat]. rewrite IH. f_equal.
    unfold row. apply list_fmap_ext. intros i v Hv.
    apply list_elem_of_lookup_2, list_elem_of_filter in Hv as [_ Hv].
    unfold sample, state_get. by rewrite (Hs v Hv). }
  destruct (buildSeries_spec states varNames) as (series & -> & Hget).
  destruct (buildSeries_spec states' varNames) as (series' & -> & Hget').
  f_equal. apply map_eq. intros k. by rewrite Hget, Hget', Hrows.
Qed.

Lemma buildSeries_reads_inputs_witness :
  buildSeries [ {[ "x" := JNumber 1 ]} ] ["x"] =
  buildSeries [ {[ "x" := JNumber 1; "#meta" := JObject {[ "index" := JNumber 0 ]} ]} ] ["x"].
Proof.
  apply buildSeries_reads_inputs. constructor; [|constructor].
  intros v Hv. apply elem_of_cons in Hv as [->|Hv]; [reflexivity|].
  by apply elem_of_nil in Hv.
Defined.

(** The default 0 replaces [null] only: a big-integer wrapper whose payload
    does not parse puts NaN into the series. *)
Theorem buildSeries_keeps_NaN
    (states : list ItfState) (varNames : list string) (v : string)
    (i : nat) (state : ItfState) (props : gmap string JsValue) (s : string) :
  colliding (stripPrefix v) varNames = [v] →
  states !! i = Some state →
  state !! v = Some (JObject props) →
  props !! "#bigint" = Some (JString s) →
  unparseable s →
  ∃ series arr,
    buildSeries states varNames = Some series ∧
    series !! stripPrefix v = Some arr ∧
    arr !! i = Some nan.
Proof.
  intros Halone Hi Hv Hp Hs.
  destruct (buildSeries_spec states varNames) as (series & Hrun & Hget).
  exists series, (series_of states v). split; [done|]. split.
  - rewrite Hget, decide_True, (rows_alone _ v); [done..|].
    apply list_elem_of_fmap_2.
    assert (Hin : v ∈ colliding (stripPrefix v) varNames).
    { rewrite Halone. apply elem_of_cons. by left. }
    by apply list_elem_of_filter in Hin as [_ ?].
  - unfold series_of. rewrite list_lookup_fmap, Hi. cbn. f_equal.
    unfold sample. rewrite (state_get_Some _ _ _ Hv), (extractNumeric_bigint _ _ Hp).
    by apply Number_unparseable.
Qed.

Lemma buildSeries_keeps_NaN_witness :
  ∃ series arr,
    buildSeries [ {[ "n" := JObject {[ "#bigint" := JString "1_000" ]} ]} ] ["n"]
      = Some series ∧
    series !! stripPrefix "n" = Some arr ∧
    arr !! 0 = Some nan.
Proof.
  apply (buildSeries_keeps_NaN _ _ "n" 0
           {[ "n" := JObject {[ "#bigint" := JString "1_000" ]} ]}
           {[ "#bigint" := JString "1_000" ]} "1_000"); reflexivity.
Defined.

(** ** What [App] derives from a trace *)


(** For a trace with at least one state, the series map has an entry for
    each check-box name and for nothing else; when the check-box names are
    pairwise distinct, every sequence is as long as the step axis. *)
Theorem App_series_aligned (t : ItfTrace) :
  states t ≠ [] →
  ∃ names series,
    App.numericVars (Some t) = Some names ∧
    App.series (Some t) = Some series ∧
    (∀ k, is_Some (series !! k) ↔ k ∈ names) ∧
    (NoDup names → ∀ k arr, series !! k = Some arr →
                   length arr = length (App.steps (Some t))).
Proof.
  intros Hne. unfold App.numericVars, App.series, App.steps, App.classify.
  destruct (states t) as [|s0 rest] eqn:Es; [done|]. cbn [lookup list_lookup fmap option_fmap option_map].
  set (c := classifyVars s0 (vars t)).
  destruct (buildSeries_spec (s0 :: rest) (numeric c)) as (series & Hrun & Hget).
  exists (stripPrefix <$> numeric c), series. split; [done|]. split; [done|]. split.
  - intros k. rewrite Hget. destruct (decide _); split; done.
  - intros Hnd k arr. rewrite Hget. destruct (decide _) as [Hk|Hk]; [|done].
    intros [= <-]. rewrite length_rows, length_seq.
    apply list_elem_of_fmap in Hk as (v & -> & Hv).
    rewrite (colliding_NoDup v (numeric c) Hnd Hv). cbn. lia.
Qed.

Lemma App_series_aligned_witness :
  let t := {| meta := ∅; vars := ["m::level"; "m::mode"];
              states := [ {[ "m::level" := JNumber 10;
                             "m::mode" := JObject {[ "tag" := JString "Idle" ]} ]};
                          {[ "m::level" := JNumber 8;
                             "m::mode" := JObject {[ "tag" := JString "Run" ]} ]} ] |} in
  ∃ names series,
    App.numericVars (Some t) = Some names ∧
    App.series (Some t) = Some series ∧
    (∀ k, is_Some (series !! k) ↔ k ∈ names) ∧
    (NoDup names → ∀ k arr, series !! k = Some arr →
                   length arr = length (App.steps (Some t))).
Proof. cbn zeta. by apply App_series_aligned. Defined.

Lemma variantChanges_unfold (t : ItfTrace) (marked : string) (ev : VariantChange) :
  ev ∈ App.variantChanges (Some t) (Some marked) →
  ∃ w, findVariantVar (vars t) marked = Some w ∧
       ev ∈ findVariantChanges (buildVariantSeries (states t) w).
Proof.
  unfold App.variantChanges. destruct (String.eqb marked ""); [by intros ?%elem_of_nil|].
  destruct (findVariantVar (vars t) marked) as [w|]; [|by intros ?%elem_of_nil].
  destruct (String.eqb w ""); [by intros ?%elem_of_nil|]. intros H. by exists w.
Qed.

(** Every change marker of the chart sits on a step of the step axis, between
    two states in which the first declared variable with the marked short
    name has different tags, and it shows those two tags, [?] standing for
    a state where the variable has none. *)
Theorem App_variantChanges_events (t : ItfTrace) (marked : string) (ev : VariantChange) :
  ev ∈ App.variantChanges (Some t) (Some marked) →
  ∃ w before after,
    findVariantVar (vars t) marked = Some w ∧
    step ev ∈ App.steps (Some t) ∧
    states t !! (step ev - 1) = Some before ∧
    states t !! step ev = Some after ∧
    step ev ≠ 0 ∧
    extractVariantTag (state_get before w) ≠ extractVariantTag (state_get after w) ∧
    fromTag ev = default "?" (extractVariantTag (state_get before w)) ∧
    toTag ev = default "?" (extractVariantTag (state_get after w)).
Proof.
  intros Hev. apply variantChanges_unfold in Hev as (w & Hw & Hev).
  apply findVariantChanges_elem in Hev as (Hi & Hc & Hev).
  unfold buildVariantSeries in Hi, Hc, Hev. rewrite length_fmap in Hi.
  destruct (lookup_lt_is_Some_2 (states t) (step ev)) as [after Ha]; [lia|].
  destruct (lookup_lt_is_Some_2 (states t) (step ev - 1)) as [before Hb]; [lia|].
  unfold changes_at in Hc. unfold event_at, tag_at in Hev.
  rewrite !list_lookup_fmap, Ha, Hb in Hc, Hev.
  cbn [fmap option_fmap option_map] in Hc, Hev. rewrite !tag_or_Some in Hev.
  exists w, before, after. split; [done|]. split.
  { unfold App.steps. apply elem_of_seq. lia. }
  split; [done|]. split; [done|]. split; [lia|]. split; [congruence|].
  rewrite Hev. done.
Qed.

Lemma App_variantChanges_events_witness :
  let t := {| meta := ∅; vars := ["m::mode"];
              states := [ {[ "m::mode" := JObject {[ "tag" := JString "Idle" ]} ]};
                          {[ "m::mode" := JObject {[ "tag" := JString "Run" ]} ]} ] |} in
  let ev := {| step := 1; fromTag := "Idle"; toTag := "Run" |} in
  ∃ w before after,
    findVariantVar (vars t) "mode" = Some w ∧
    step ev ∈ App.steps (Some t) ∧
    states t !! (step ev - 1) = Some before ∧
    states t !! step ev = Some after ∧
    step ev ≠ 0 ∧
    extractVariantTag (state_get before w) ≠ extractVariantTag (state_get after w) ∧
    fromTag ev = default "?" (extractVariantTag (state_get before w)) ∧
    toTag ev = default "?" (extractVariantTag (state_get after w)).
Proof.
  cbn zeta. apply App_variantChanges_events. apply elem_of_cons. by left.
Defined.

(** The chart gets no change marker when nothing is marked, when no declared
    variable has the marked short name, and when the first declared variable
    with that short name has the same tag, or none, in every state, whatever
    the other variables with that short name do. *)
Theorem App_variantChanges_empty (t : ItfTrace) (markedVariant : option string) :
  markedVariant = None ∨ markedVariant = Some "" ∨
  (∃ marked, markedVariant = Some marked ∧ marked ∉ stripPrefix <$> vars t) ∨
  (∃ marked w, markedVariant = Some marked ∧
     findVariantVar (vars t) marked = Some w ∧
     ∀ s s', s ∈ states t → s' ∈ states t →
             extractVariantTag (state_get s w) = extractVariantTag (state_get s' w)) →
  App.variantChanges (Some t) markedVariant = [].
Proof.
  intros [->|[->|[(marked & -> & Hno)|(marked & w & -> & Hw & Hconst)]]]; try done.
  - unfold App.variantChanges. destruct (String.eqb marked ""); [done|].
    apply (findVariantVar_first_match (vars t) marked) in Hno. by rewrite Hno.
  - unfold App.variantChanges. destruct (String.eqb marked ""); [done|]. rewrite Hw.
    destruct (String.eqb w ""); [done|]. apply findVariantChanges_constant.
    unfold buildVariantSeries.
    intros a b (s & -> & Hs)%list_elem_of_fmap (s' & -> & Hs')%list_elem_of_fmap.
    by apply Hconst.
Qed.

Lemma App_variantChanges_empty_witness :
  App.variantChanges
    (Some {| meta := ∅; vars := ["a::mode"; "b::mode"];
             states := [ {[ "a::mode" := JNumber 1;
                            "b::mode" := JObject {[ "tag" := JString "Idle" ]} ]};
                         {[ "a::mode" := JNumber 2;
                            "b::mode" := JObject {[ "tag" := JString "Run" ]} ]} ] |})
    (Some "mode") = [].
Proof.
  apply App_variantChanges_empty. right. right. right.
  exists "mode", "a::mode". split; [reflexivity|]. split; [reflexivity|].
  intros s s' Hs Hs'. cbn [states] in Hs, Hs'.
  repeat (apply elem_of_cons in Hs as [->|Hs]);
    repeat (apply elem_of_cons in Hs' as [->|Hs']);
    try reflexivity; by apply elem_of_nil in Hs || by apply elem_of_nil in Hs'.
Defined.

(** Toggling a check box twice restores the selection, and one toggle flips
    the membership of that name and of no other. *)
Theorem handleToggleVar_flip (name : string) (prev : gset string) :
  App.handleToggleVar name (App.handleToggleVar name prev) = prev ∧
  (name ∈ App.handleToggleVar name prev ↔ name ∉ prev) ∧
  (∀ other, other ≠ name → (other ∈ App.handleToggleVar name prev ↔ other ∈ prev)).
Proof.
  unfold App.handleToggleVar. destruct (decide (name ∈ prev)) as [Hin|Hout].
  - assert (Hgone : name ∉ prev ∖ {[ name ]}).
    { rewrite elem_of_difference, elem_of_singleton. by intros [_ ?]. }
    rewrite decide_False by done. split; [|split].
    + apply set_eq. intros x.
      rewrite elem_of_union, elem_of_difference, elem_of_singleton.
      destruct (decide (x = name)) as [->|Hne]; split; auto; intros [[? _]|?]; auto.
      congruence.
    + split; [done|]. by intros ?.
    + intros other Hne. rewrite elem_of_difference, elem_of_singleton. split; [by intros [? _]|auto].
  - assert (Hthere : name ∈ prev ∪ {[ name ]}).
    { rewrite elem_of_union, elem_of_singleton. by right. }
    rewrite decide_True by done. split; [|split].
    + apply set_eq. intros x.
      rewrite elem_of_difference, elem_of_union, elem_of_singleton. split.
      * intros [[?|?] ?]; [done|congruence].
      * intros Hx. split; [by left|]. intros ->. done.
    + done.
    + intros other Hne. rewrite elem_of_union, elem_of_singleton. split; [|by left].
      intros [?|?]; [done|congruence].
Qed.

(** ** The threshold line of [Controls] *)

Section Thresholds.

Local Abbreviation chars := list_ascii_of_string (only parsing).
Local Abbreviation LT := Controls.has_line_terminator (only parsing).
Local Abbreviation terminators :=
  ([[10]; [13]; [226; 128; 168]; [226; 128; 169]]%Z) (only parsing).

Lemma chars_append (a b : string) : chars (a +:+ b) = chars a ++ chars b.
Proof. induction a as [|c a IH]; [done|]. rewrite append_cons. cbn. by rewrite IH. Qed.

Lemma length_chars (s : string) : length (chars s) = String.length s.
Proof. induction s as [|c s IH]; [done|]. cbn. by rewrite IH. Qed.

Lemma chars_inj (a b : string) : chars a = chars b → a = b.
Proof.
  intros H. rewrite <- (string_of_list_ascii_of_string a), H.
  apply string_of_list_ascii_of_string.
Qed.

Lemma LT_cons (c : ascii) (l : list ascii) :
  LT (c :: l) = is_not_null (JsNumber.drop_any terminators (c :: l)) || LT l.
Proof. reflexivity. Qed.

(** A separator sign [=] neither is nor completes a line terminator. *)
Lemma terminator_before_sep (a : ascii) (x y : list ascii) :
  is_not_null (JsNumber.drop_any terminators (a :: x ++ "="%char :: y)) =
  is_not_null (JsNumber.drop_any terminators (a :: x)).
Proof.
  destruct x as [|b [|c x]];
    cbn [app JsNumber.drop_any JsNumber.drop_prefix];
    change (JsNumber.code "=") with 61%Z;
    change (128 =? 61)%Z with false;
    change (168 =? 61)%Z with false;
    change (169 =? 61)%Z with false;
    repeat (match goal with
            | |- context [Z.eqb ?u (JsNumber.code ?v)] => destruct (Z.eqb u (JsNumber.code v))
            end);
    reflexivity.
Qed.

Lemma LT_sep (x y : list ascii) : LT (x ++ "="%char :: y) = LT x || LT y.
Proof.
  induction x as [|a x IH].
  - reflexivity.
  - rewrite <- app_comm_cons, !LT_cons, IH, terminator_before_sep. by rewrite orb_assoc.
Qed.

Lemma groups_at_Some (n : nat) (input g1 g2 : list ascii) :
  Controls.groups_at n input = Some (g1, g2) ↔
  input = g1 ++ "="%char :: g2 ∧ length g1 = n ∧ g2 ≠ [] ∧ LT g1 = false ∧ LT g2 = false.
Proof.
  unfold Controls.groups_at. split.
  - destruct (drop n input) as [|c r] eqn:E; [done|].
    destruct (Ascii.eqb_spec c "=") as [->|Hc]; [|done]. cbn [andb].
    destruct r as [|r0 r]; [done|]. cbn [JsNumber.nonempty length Nat.eqb negb andb].
    destruct (LT (take n input)) eqn:E1; [done|].
    destruct (LT (r0 :: r)) eqn:E2; [done|]. cbn. intros [= <- <-].
    split; [by rewrite <- E, take_drop|]. split; [|done].
    rewrite length_take. apply Nat.min_l.
    assert (length (drop n input) = S (S (length r))) by by rewrite E.
    rewrite length_drop in H. lia.
  - intros (-> & <- & Hne & H1 & H2).
    rewrite drop_app_length, take_app_length, H1, H2, Ascii.eqb_refl.
    destruct g2; [done|]. reflexivity.
Qed.

Lemma match_groups_Some (n : nat) (input : list ascii) (g : list ascii * list ascii) :
  Controls.match_groups n input = Some g ↔
  ∃ k, 1 ≤ k ≤ n ∧ Controls.groups_at k input = Some g ∧
       ∀ j, k < j ≤ n → Controls.groups_at j input = None.
Proof.
  induction n as [|n IH]; cbn [Controls.match_groups].
  - split; [done|]. intros (k & ? & _). lia.
  - destruct (Controls.groups_at (S n) input) as [g'|] eqn:E.
    + split.
      * intros [= <-]. exists (S n). split; [lia|]. split; [done|]. intros j ?. lia.
      * intros (k & Hk & Hg & Hnone). destruct (decide (k = S n)) as [->|Hne].
        -- by rewrite <- E, Hg.
        -- rewrite Hnone in E by lia. done.
    + rewrite IH. split.
      * intros (k & Hk & Hg & Hnone). exists k. split; [lia|]. split; [done|].
        intros j Hj. destruct (decide (j = S n)) as [->|Hne]; [done|]. apply Hnone. lia.
      * intros (k & Hk & Hg & Hnone). exists k.
        assert (k ≠ S n) by (intros ->; by rewrite Hg in E).
        split; [lia|]. split; [done|]. intros j Hj. apply Hnone. lia.
Qed.

Lemma match_threshold_groups (input m1 m2 : string) :
  Controls.match_threshold input = Some (m1, m2) →
  input = m1 +:+ "=" +:+ m2 ∧ m1 ≠ "" ∧ m2 ≠ "" ∧
  LT (chars input) = false ∧
  ∀ a b, m2 = a +:+ "=" +:+ b → b = "".
Proof.
  unfold Controls.match_threshold.
  destruct (Controls.match_groups _ _) as [[g1 g2]|] eqn:E; [|done]. intros [= <- <-].
  apply match_groups_Some in E as (k & Hk & Hg & Hnone).
  apply groups_at_Some in Hg as (Hin & Hlen & Hne & H1 & H2).
  assert (Hinput : input = string_of_list_ascii g1 +:+ "=" +:+ string_of_list_ascii g2).
  { apply chars_inj. rewrite !chars_append, !list_ascii_of_string_of_list_ascii. exact Hin. }
  split; [exact Hinput|]. split; [|split; [|split]].
  - intros H0. apply (f_equal chars) in H0.
    rewrite list_ascii_of_string_of_list_ascii in H0. subst g1. cbn in Hlen. lia.
  - intros H0. apply (f_equal chars) in H0.
    rewrite list_ascii_of_string_of_list_ascii in H0. by subst g2.
  - by rewrite Hin, LT_sep, H1, H2.
  - intros a b Hab. apply (f_equal chars) in Hab.
    rewrite list_ascii_of_string_of_list_ascii, !chars_append in Hab. cbn [app] in Hab.
    change (chars "=") with ["="%char] in Hab. cbn [app] in Hab.
    destruct (chars b) as [|b0 br] eqn:Eb.
    { apply chars_inj. by rewrite Eb. }
    exfalso. subst g2. rewrite LT_sep in H2. apply orb_false_iff in H2 as [Ha Hb].
    assert (Hsome : Controls.groups_at (length (g1 ++ "="%char :: chars a)) (chars input)
                    = Some (g1 ++ "="%char :: chars a, b0 :: br)).
    { apply groups_at_Some. rewrite Hin, <- app_assoc. cbn [app].
      split; [done|]. split; [done|]. split; [done|]. split; [|done].
      by rewrite LT_sep, H1, Ha. }
    rewrite Hnone in Hsome; [done|].
    rewrite length_app in *. cbn [length] in *. rewrite <- length_chars, Hin.
    rewrite length_app. cbn [length]. rewrite length_app. cbn [length]. lia.
Qed.

(** What a match means: the input is the first group, a [=] and the second
    group; neither group is empty or holds a line terminator; and the first
    group is as long as it can be, so a [=] in the second group can only be
    its last character. *)
Theorem match_threshold_sound (input m1 m2 : string) :
  Controls.match_threshold input = Some (m1, m2) →
  input = m1 +:+ "=" +:+ m2 ∧ m1 ≠ "" ∧ m2 ≠ "" ∧
  LT (chars input) = false ∧
  ∀ a b, m2 = a +:+ "=" +:+ b → b = "".
Proof. apply match_threshold_groups. Qed.

Lemma match_threshold_sound_witness :
  "a=b=" = "a" +:+ "=" +:+ "b=" ∧ "a" ≠ "" ∧ "b=" ≠ "" ∧
  LT (chars "a=b=") = false ∧
  ∀ a b, "b=" = a +:+ "=" +:+ b → b = "".
Proof. by apply match_threshold_sound. Defined.

Lemma match_threshold_found (a b : string) :
  a ≠ "" → b ≠ "" →
  LT (chars a) = false → LT (chars b) = false →
  "="%char ∉ chars b →
  Controls.match_threshold (a +:+ "=" +:+ b) = Some (a, b).
Proof.
  intros Ha Hb HLa HLb Hno. unfold Controls.match_threshold.
  assert (Hin : chars (a +:+ "=" +:+ b) = chars a ++ "="%char :: chars b).
  { by rewrite !chars_append. }
  assert (Hm : Controls.match_groups (String.length (a +:+ "=" +:+ b))
                 (chars (a +:+ "=" +:+ b)) = Some (chars a, chars b)).
  { apply match_groups_Some. exists (length (chars a)).
    rewrite <- length_chars, Hin, length_app. cbn [length]. split; [|split].
    - destruct (chars a) eqn:E; [|cbn; lia]. destruct Ha. apply chars_inj. by rewrite E.
    - apply groups_at_Some. split; [done|]. split; [done|]. split; [|done].
      intros E. destruct Hb. apply chars_inj. by rewrite E.
    - intros j Hj. unfold Controls.groups_at.
      rewrite drop_app_ge by lia.
      destruct (j - length (chars a)) as [|d] eqn:Ed; [lia|]. cbn [drop].
      destruct (drop d (chars b)) as [|c r] eqn:E; [done|].
      destruct (Ascii.eqb_spec c "=") as [->|Hc]; [|done]. destruct Hno.
      apply (list_elem_of_lookup_2 _ d). rewrite <- (take_drop d (chars b)), E.
      rewrite lookup_app_r by (rewrite length_take; lia).
      rewrite length_take.
      assert (d < length (chars b)).
      { assert (length (drop d (chars b)) = S (length r)) by by rewrite E.
        rewrite length_drop in H. lia. }
      by replace (d - d `min` length (chars b)) with 0 by lia. }
  by rewrite Hm, !string_of_list_ascii_of_string.
Qed.

(** When the input is a non-empty label, a [=] and a non-empty value without
    [=], all without line terminators, the groups are the label and the
    value. *)
Theorem match_threshold_complete (a b : string) :
  a ≠ "" → b ≠ "" →
  LT (chars a) = false → LT (chars b) = false →
  "="%char ∉ chars b →
  Controls.match_threshold (a +:+ "=" +:+ b) = Some (a, b).
Proof. apply match_threshold_found. Qed.

Lemma match_threshold_complete_witness :
  Controls.match_threshold ("Max level" +:+ "=" +:+ "10") = Some ("Max level", "10").
Proof.
  apply match_threshold_complete; try done.
  intros H. repeat (apply elem_of_cons in H as [H|H]; [discriminate H|]).
  by apply elem_of_nil in H.
Defined.

End Thresholds.

(** The handler either leaves the state as it is, text included, or clears
    the text and appends one threshold whose value is not NaN; so a
    threshold list without NaN stays without NaN. *)
Theorem handleAddThreshold_cases (st : Controls.State) :
  let st' := Controls.handleAddThreshold st in
  (st' = st ∨
   ∃ m1 m2,
     Controls.match_threshold (Controls.thresholdInput st) = Some (m1, m2) ∧
     Controls.thresholdInput st' = "" ∧
     Controls.thresholds st' =
       Controls.thresholds st ++
       [ {| label := Controls.trim m1; value := Number (Controls.trim m2) |} ] ∧
     Controls.isNaN (Number (Controls.trim m2)) = false) ∧
  (Forall (fun t => Controls.isNaN (value t) = false) (Controls.thresholds st) →
   Forall (fun t => Controls.isNaN (value t) = false) (Controls.thresholds st')).
Proof.
  cbn zeta. unfold Controls.handleAddThreshold.
  destruct (Controls.match_threshold _) as [[m1 m2]|]; [|by split; [left|]].
  destruct (Controls.isNaN (Number (Controls.trim m2))) eqn:E; cbn [negb].
  - by split; [left|].
  - split.
    + right. by exists m1, m2.
    + intros Hall. cbn [Controls.thresholds]. unfold App.onAddThreshold.
      apply Forall_app. split; [done|]. by apply Forall_singleton.
Qed.

Lemma handleAddThreshold_cases_witness :
  let st := {| Controls.thresholdInput := "Max=1e2";
               Controls.thresholds := [ {| label := "Min"; value := 1 |} ] |} in
  Forall (fun t => Controls.isNaN (value t) = false)
         (Controls.thresholds (Controls.handleAddThreshold st)).
Proof.
  cbn zeta. apply handleAddThreshold_cases. by apply Forall_singleton.
Defined.

(** Nothing happens when the text holds no [=], or holds a line terminator:
    the thresholds and the text stay as they are. *)
Theorem handleAddThreshold_rejects (st : Controls.State) :
  "="%char ∉ list_ascii_of_string (Controls.thresholdInput st) ∨
  Controls.has_line_terminator (list_ascii_of_string (Controls.thresholdInput st)) = true →
  Controls.handleAddThreshold st = st.
Proof.
  intros Hbad. unfold Controls.handleAddThreshold.
  destruct (Controls.match_threshold _) as [[m1 m2]|] eqn:E; [|done]. exfalso.
  apply match_threshold_groups in E as (Hin & _ & _ & HLT & _).
  destruct Hbad as [Hno|Hterm]; [|congruence].
  apply Hno. rewrite Hin, !chars_append. apply elem_of_app. right.
  apply elem_of_cons. by left.
Qed.

Lemma handleAddThreshold_rejects_witness :
  Controls.handleAddThreshold {| Controls.thresholdInput := "Max 10"; Controls.thresholds := [] |}
  = {| Controls.thresholdInput := "Max 10"; Controls.thresholds := [] |}.
Proof.
  apply handleAddThreshold_rejects. left. intros H. cbn in H.
  repeat (apply elem_of_cons in H as [H|H]; [discriminate H|]).
  by apply elem_of_nil in H.
Defined.

Lemma trim_start_spaces (ws : list (list Z)) (n fuel : nat) :
  JsNumber.drop_any ws [] = None →
  (∀ l, JsNumber.drop_any ws (" "%char :: l) = Some l) →
  n ≤ fuel →
  JsNumber.trim_start ws fuel (replicate n " "%char) = [].
Proof.
  intros Hnil Hsp. revert n. induction fuel as [|fuel IH]; intros n Hn.
  - by replace n with 0 by lia.
  - destruct n as [|n]; cbn [replicate JsNumber.trim_start].
    + by rewrite Hnil.
    + rewrite Hsp. apply IH. lia.
Qed.

(** A value made of blanks only counts as 0: the text [label=] followed by
    one or more spaces adds a threshold of value 0. *)
Theorem handleAddThreshold_blank_value (a : string) (n : nat) (ts : list Threshold) :
  a ≠ "" →
  Controls.has_line_terminator (list_ascii_of_string a) = false →
  Controls.handleAddThreshold
    {| Controls.thresholdInput := a +:+ "=" +:+ string_of_list_ascii (replicate (S n) " "%char);
       Controls.thresholds := ts |} =
  {| Controls.thresholdInput := "";
     Controls.thresholds := ts ++ [ {| label := Controls.trim a; value := 0 |} ] |}.
Proof.
  intros Ha HLa. unfold Controls.handleAddThreshold. cbn [Controls.thresholdInput].
  set (w := replicate (S n) " "%char).
  assert (Hw : list_ascii_of_string (string_of_list_ascii w) = w)
    by apply list_ascii_of_string_of_list_ascii.
  assert (Hm : Controls.match_threshold (a +:+ "=" +:+ string_of_list_ascii w)
               = Some (a, string_of_list_ascii w)).
  { apply match_threshold_found.
    - exact Ha.
    - intros H. apply (f_equal list_ascii_of_string) in H. rewrite Hw in H. done.
    - exact HLa.
    - rewrite Hw. unfold w. clear. induction (S n) as [|m IH]; [done|].
      cbn [replicate]. rewrite LT_cons, IH. reflexivity.
    - rewrite Hw. unfold w. intros H. apply elem_of_replicate in H as [H _].
      discriminate H. }
  assert (Htrim : Controls.trim (string_of_list_ascii w) = "").
  { unfold Controls.trim, JsNumber.trim. rewrite Hw.
    rewrite (trim_start_spaces _ (S n) (length w)); [done|reflexivity|reflexivity|].
    unfold w. by rewrite length_replicate. }
  rewrite Hm, Htrim. reflexivity.
Qed.

Lemma handleAddThreshold_blank_value_witness :
  Controls.handleAddThreshold
    {| Controls.thresholdInput := "Limit" +:+ "=" +:+ string_of_list_ascii (replicate 2 " "%char);
       Controls.thresholds := [] |} =
  {| Controls.thresholdInput := "";
     Controls.thresholds := [] ++ [ {| label := Controls.trim "Limit"; value := 0 |} ] |}.
Proof. by apply handleAddThreshold_blank_value. Defined.

Lemma remove_below (j a : nat) (l : list Threshold) :
  j < a →
  snd <$> filter (fun p => fst p ≠ j) (zip (seq a (length l)) l) = l.
Proof.
  revert a. induction l as [|x l IH]; intros a Hj; [done|].
  cbn [length seq zip zip_with]. rewrite filter_cons_True by (cbn; lia).
  rewrite fmap_cons. cbn [snd]. f_equal. apply IH. lia.
Qed.

Lemma remove_from (a i : nat) (l : list Threshold) :
  snd <$> filter (fun p => fst p ≠ a + i) (zip (seq a (length l)) l) =
  take i l ++ drop (S i) l.
Proof.
  revert a i. induction l as [|x l IH]; intros a i; [by destruct i|].
  cbn [length seq zip zip_with]. destruct i as [|i].
  - rewrite filter_cons_False by (cbn; lia). rewrite Nat.add_0_r.
    cbn [take drop app]. apply remove_below. lia.
  - rewrite filter_cons_True by (cbn; lia). rewrite fmap_cons. cbn [snd take drop app].
    f_equal. replace (a + S i) with (S a + i) by lia. apply IH.
Qed.

(** Removing a threshold takes out the one at the given index and keeps the
    others in their order; an index past the end removes nothing; and
    removing what was just added gives the list back. *)
Theorem onRemoveThreshold_spec (i : nat) (prev : list Threshold) :
  App.onRemoveThreshold i prev = take i prev ++ drop (S i) prev ∧
  (length prev ≤ i → App.onRemoveThreshold i prev = prev) ∧
  (i < length prev → length (App.onRemoveThreshold i prev) = length prev - 1) ∧
  (∀ t, App.onRemoveThreshold (length prev) (App.onAddThreshold t prev) = prev).
Proof.
  assert (Hspec : ∀ j l, App.onRemoveThreshold j l = take j l ++ drop (S j) l).
  { intros j l. apply (remove_from 0 j l). }
  split; [apply Hspec|]. split; [|split].
  - intros Hi. rewrite Hspec, take_ge, drop_ge by lia. by rewrite app_nil_r.
  - intros Hi. rewrite Hspec, length_app, length_take, length_drop. lia.
  - intros t. rewrite Hspec. unfold App.onAddThreshold.
    rewrite take_app_length, drop_ge; [by rewrite app_nil_r|].
    rewrite length_app. cbn. lia.
Qed.

Lemma onRemoveThreshold_spec_witness :
  let prev := [ {| label := "a"; value := 1 |}; {| label := "b"; value := 2 |} ] in
  length (App.onRemoveThreshold 0 prev) = length prev - 1.
Proof. cbn zeta. apply onRemoveThreshold_spec. cbn. lia. Defined.
